(** * HashMap: a bounded-probe open-addressing hash table

    Shallow embedding of [src/hashmap.h] and the properties its
    specification states about it.

    Conventions of the embedding.
    - [size_t] quantities ([size_], [capacity_], [BLOCK_SIZE], positions,
      displacement counters, hash values) are natural numbers.  Every one
      of them except the hash value is bounded by the length of an
      allocated vector or by [BLOCK_SIZE], so the 64-bit wrap-around of
      the C++ type is out of reach and is not modelled.  The one
      decrement, [size_--] in [erase], is the truncated subtraction; it
      runs only after a key was found, when [size_] is positive in every
      reachable state.
    - [table_] is a list of optional (key, value) pairs: [None] is the null
      [unique_ptr].  [from_] is a list of naturals.
    - Every subscript is a checked read or write: an index outside the
      vector gives [Err OutOfRange], the model's rendering of undefined
      behaviour.
    - The unbounded retry loop of [insert] and its recursion through
      [Rebuild] are driven by a fuel argument; running out of it is
      [Err OutOfFuel].  The inner probe walk is total and gets a bound
      computed from the state. *)

From stdpp Require Import base numbers option list strings gmap.

(** ** Outcomes of an operation *)

Inductive error : Type :=
  | OutOfRange   (* subscript outside a vector, or null/end dereference *)
  | KeyNotFound  (* std::out_of_range("Key not found") thrown by at() *)
  | OutOfFuel.   (* the model's fuel ran out: no outcome observed *)

Inductive result (A : Type) : Type :=
  | Ok (a : A)
  | Err (e : error).
Arguments Ok {A} a.
Arguments Err {A} e.

Global Instance error_eq_dec : EqDecision error.
Proof. solve_decision. Defined.

Global Instance result_ret : MRet result := λ A a, Ok a.
Global Instance result_bind : MBind result := λ A B f m,
  match m with
  | Ok a => f a
  | Err e => Err e
  end.

(** Checked subscript. *)
Definition read {A : Type} (l : list A) (i : nat) : result A :=
  match l !! i with
  | Some x => Ok x
  | None => Err OutOfRange
  end.

Definition write {A : Type} (l : list A) (i : nat) (x : A) : result (list A) :=
  if decide (i < length l) then Ok (<[i := x]> l) else Err OutOfRange.

(** The result of a run that is known to return. *)
Definition get_or {A : Type} (d : A) (r : result A) : A :=
  match r with
  | Ok a => a
  | Err _ => d
  end.

Definition DEFAULT_BLOCK_SIZE : nat := 64.
Definition STANDARD_DIFF : nat := 5.

(** The [Hash] template parameter: a functor from keys to [size_t]. *)
Class Hash (K : Type) : Type := hasher_ : K → nat.

(** [ValueType()], the value [operator[]] stores for a missing key. *)
Class DefaultValue (V : Type) : Type := default_value : V.

Section HashMap.

Context {KeyType ValueType : Type} `{Countable KeyType}.
Context `{Hash KeyType} `{DefaultValue ValueType}.

Local Abbreviation entry := (KeyType * ValueType)%type.

Record HashMap : Type := mkHashMap {
  size_ : nat;
  capacity_ : nat;
  BLOCK_SIZE : nat;
  table_ : list (option entry);
  from_ : list nat
}.

(** [HashMap(Hash hasher)] *)
Definition construct : HashMap :=
  {| size_ := 0; capacity_ := 1; BLOCK_SIZE := DEFAULT_BLOCK_SIZE;
     table_ := [None]; from_ := [0] |}.

Definition size (st : HashMap) : nat := size_ st.
Definition empty (st : HashMap) : bool := bool_decide (size st = 0).

Definition GetBucket (st : HashMap) (key : KeyType) : nat :=
  Nat.land (hasher_ key) (capacity_ st - 1).

Definition GetNext (st : HashMap) (h : nat) : nat :=
  Nat.land (h + 1) (capacity_ st - 1).

(** The [for] loop of [FindPosition]; [n] is the number of iterations left. *)
Fixpoint FindPosition_loop (st : HashMap) (key : KeyType) (n h : nat) : result nat :=
  match n with
  | 0 => Ok (capacity_ st)
  | S n' =>
      slot ← read (table_ st) h;
      match slot with
      | Some (k, _) =>
          if decide (k = key) then Ok h
          else FindPosition_loop st key n' (GetNext st h)
      | None => FindPosition_loop st key n' (GetNext st h)
      end
  end.

Definition FindPosition (st : HashMap) (key : KeyType) : result nat :=
  FindPosition_loop st key (BLOCK_SIZE st) (GetBucket st key).

(** Iterators are positions in [table_]; [table_.end()] is its length. *)
Definition end_ (st : HashMap) : nat := length (table_ st).

Definition find (st : HashMap) (key : KeyType) : result nat :=
  h ← FindPosition st key;
  Ok (if decide (h ≠ capacity_ st) then h else end_ st).

(** [*it] and [it->second]. *)
Definition deref (st : HashMap) (it : nat) : result entry :=
  slot ← read (table_ st) it;
  match slot with
  | Some e => Ok e
  | None => Err OutOfRange
  end.

Definition at_ (st : HashMap) (key : KeyType) : result ValueType :=
  it ← find st key;
  if decide (it = end_ st) then Err KeyNotFound
  else e ← deref st it; Ok e.2.

(** The state after the two [std::swap] calls of the probe walk: slot [h2]
    now holds the carried entry and its displacement. *)
Definition swap_slot (st : HashMap) (h2 : nat) (ptr : option entry) (diff : nat)
    : HashMap :=
  {| size_ := size_ st; capacity_ := capacity_ st; BLOCK_SIZE := BLOCK_SIZE st;
     table_ := <[h2 := ptr]> (table_ st);
     from_ := <[h2 := diff]> (from_ st) |}.

(** The inner [while (diff < BLOCK_SIZE && ptr)] of [insert]; [n] bounds the
    number of iterations. *)
Fixpoint insert_probe (n : nat) (st : HashMap) (ptr : option entry) (diff h2 : nat)
    : result (HashMap * option entry) :=
  match ptr with
  | None => Ok (st, None)
  | Some _ =>
      if decide (diff < BLOCK_SIZE st) then
        match n with
        | 0 => Err OutOfFuel
        | S n' =>
            slot ← read (table_ st) h2;
            f ← read (from_ st) h2;
            if decide (slot = None ∨ f < diff) then
              insert_probe n' (swap_slot st h2 ptr diff) slot (f + 1) (GetNext st h2)
            else insert_probe n' st ptr (diff + 1) (GetNext st h2)
        end
      else Ok (st, ptr)
  end.

(** A bound on the iterations of the probe walk: every iteration raises the
    sum of the displacement counters of the occupied slots and of the
    carried entry by one, and none of them exceeds [BLOCK_SIZE]. *)
Definition probe_bound (st : HashMap) : nat :=
  (length (table_ st) + 1) * BLOCK_SIZE st.

Definition with_size (st : HashMap) (n : nat) : HashMap :=
  {| size_ := n; capacity_ := capacity_ st; BLOCK_SIZE := BLOCK_SIZE st;
     table_ := table_ st; from_ := from_ st |}.

(** [while (size_ * STANDARD_DIFF > capacity_) capacity_ <<= 1;]
    The capacity doubles in each round, so [size_ * STANDARD_DIFF] rounds
    are enough. *)
Fixpoint grow_capacity (n sz cap : nat) : nat :=
  match n with
  | 0 => cap
  | S n' =>
      if decide (cap < sz * STANDARD_DIFF) then grow_capacity n' sz (Nat.shiftl cap 1)
      else cap
  end.

Definition new_capacity (sz : nat) : nat :=
  grow_capacity (sz * STANDARD_DIFF) sz 1.

(** [for (auto &elem: values) ++cnt[GetBucket(elem->first)];] *)
Fixpoint count_buckets (st : HashMap) (values : list entry) (cnt : list nat)
    : result (list nat) :=
  match values with
  | [] => Ok cnt
  | elem :: values' =>
      c ← read cnt (GetBucket st elem.1);
      count_buckets st values' (<[GetBucket st elem.1 := S c]> cnt)
  end.

Definition max_element (cnt : list nat) : nat := foldr Nat.max 0 cnt.

(** [Rebuild] up to its last loop: the occupied entries are moved out (which
    leaves every slot null), the vectors are resized, the clusters counted. *)
Definition Rebuild_prepare (st : HashMap) : result (HashMap * list entry) :=
  let values := omap id (table_ st) in
  let cap := new_capacity (size_ st) in
  let st1 := {| size_ := size_ st; capacity_ := cap; BLOCK_SIZE := BLOCK_SIZE st;
                table_ := resize cap None ((λ _, None) <$> table_ st);
                from_ := resize cap 0 (from_ st) |} in
  cnt ← count_buckets st1 values (replicate cap 0);
  Ok ({| size_ := 0; capacity_ := cap;
         BLOCK_SIZE := Nat.max DEFAULT_BLOCK_SIZE (2 * max_element cnt);
         table_ := table_ st1; from_ := from_ st1 |}, values).

(** The reinsertion loop of [Rebuild]: [insert] on every collected entry. *)
Fixpoint insert_all (ins : HashMap → entry → result HashMap) (st : HashMap)
    (values : list entry) : result HashMap :=
  match values with
  | [] => Ok st
  | p :: values' => st' ← ins st p; insert_all ins st' values'
  end.

Definition Rebuild_with (ins : HashMap → entry → result HashMap) (st : HashMap)
    : result HashMap :=
  '(st', values) ← Rebuild_prepare st;
  insert_all ins st' values.

(** The [while (true)] of [insert], entered with the carried entry [ptr]. *)
Fixpoint insert_loop (rebuild : HashMap → result HashMap) (n : nat) (st : HashMap)
    (ptr : entry) : result HashMap :=
  match n with
  | 0 => Err OutOfFuel
  | S n' =>
      '(st1, ptr1) ← insert_probe (probe_bound st) st (Some ptr) 0 (GetBucket st ptr.1);
      match ptr1 with
      | None => Ok (with_size st1 (size_ st1 + 1))
      | Some p =>
          st2 ← rebuild st1;
          insert_loop rebuild n' st2 p
      end
  end.

Fixpoint insert (fuel : nat) (st : HashMap) (elem : entry) : result HashMap :=
  match fuel with
  | 0 => Err OutOfFuel
  | S fuel' =>
      it ← find st elem.1;
      if decide (it ≠ end_ st) then Ok st
      else insert_loop (Rebuild_with (insert fuel')) fuel st elem
  end.

Definition Rebuild (fuel : nat) (st : HashMap) : result HashMap :=
  Rebuild_with (insert fuel) st.

Definition erase (st : HashMap) (key : KeyType) : result HashMap :=
  h ← FindPosition st key;
  if decide (h = capacity_ st) then Ok st
  else
    t ← write (table_ st) h None;
    Ok {| size_ := size_ st - 1; capacity_ := capacity_ st;
          BLOCK_SIZE := BLOCK_SIZE st; table_ := t; from_ := from_ st |}.

(** [operator[]]: the state after the call, the position of the entry and
    the value the returned reference points at. *)
Definition index (fuel : nat) (st : HashMap) (key : KeyType)
    : result (HashMap * nat * ValueType) :=
  it ← find st key;
  st1 ← (if decide (it = end_ st) then insert fuel st (key, default_value) else Ok st);
  it' ← find st1 key;
  e ← deref st1 it';
  Ok (st1, it', e.2).

(** Assignment through the reference [operator[]] returned: [t[key] = v]. *)
Definition index_assign (fuel : nat) (st : HashMap) (key : KeyType) (v : ValueType)
    : result HashMap :=
  '(st1, it, _) ← index fuel st key;
  e ← deref st1 it;
  t ← write (table_ st1) it (Some (e.1, v));
  Ok {| size_ := size_ st1; capacity_ := capacity_ st1;
        BLOCK_SIZE := BLOCK_SIZE st1; table_ := t; from_ := from_ st1 |}.

Definition clear (st : HashMap) : result HashMap :=
  t ← write (resize 1 None (table_ st)) 0 None;
  Ok {| size_ := 0; capacity_ := 1; BLOCK_SIZE := DEFAULT_BLOCK_SIZE;
        table_ := t; from_ := resize 1 0 (from_ st) |}.

(** The skipping loop of the iterator: advance while not at the end and the
    slot is null. *)
Fixpoint skip_empty (n : nat) (st : HashMap) (it : nat) : nat :=
  match n with
  | 0 => it
  | S n' =>
      if decide (it ≠ end_ st) then
        match table_ st !! it with
        | Some None => skip_empty n' st (it + 1)
        | _ => it
        end
      else it
  end.

(** [HashMapIterator::operator++] *)
Definition iter_incr (st : HashMap) (it : nat) : nat :=
  skip_empty (length (table_ st)) st (it + 1).

Definition begin_ (st : HashMap) : result nat :=
  slot ← read (table_ st) 0;
  Ok (match slot with
      | None => iter_incr st 0
      | Some _ => 0
      end).

(** [for (it = begin(); it != end(); ++it) yield *it] *)
Fixpoint traverse_from (n : nat) (st : HashMap) (it : nat) : result (list entry) :=
  if decide (it = end_ st) then Ok []
  else
    match n with
    | 0 => Err OutOfFuel
    | S n' =>
        e ← deref st it;
        rest ← traverse_from n' st (iter_incr st it);
        Ok (e :: rest)
    end.

Definition traverse (st : HashMap) : result (list entry) :=
  b ← begin_ st;
  traverse_from (length (table_ st)) st b.

(** ** Constructors from a range, copies and iterator decrement *)

(** [HashMap(Iterator begin, Iterator end, Hash hasher)], to which the
    initializer-list constructor delegates: [insert] on every element of
    the range, in its order, starting from the empty table. *)
Definition construct_range (fuel : nat) (l : list entry) : result HashMap :=
  insert_all (insert fuel) construct l.

(** [HashMap(const HashMap &other)]: the range constructor on
    [other.begin()] to [other.end()]. *)
Definition construct_copy (fuel : nat) (other : HashMap) : result HashMap :=
  values ← traverse other;
  construct_range fuel values.

(** [operator=]: the entries of [other] are copied out first, then the
    table is cleared and they are inserted.  The hash functor is the one
    shared instance. *)
Definition assign_from (fuel : nat) (st other : HashMap) : result HashMap :=
  values ← traverse other;
  st1 ← clear st;
  insert_all (insert fuel) st1 values.

(** The loop of [HashMapIterator::operator--], entered after the first
    decrement: step back while not at the end and the slot is null.
    Stepping back from position 0 leaves the vector. *)
Fixpoint skip_empty_back (st : HashMap) (it : nat) : result nat :=
  if decide (it ≠ end_ st) then
    slot ← read (table_ st) it;
    match slot with
    | Some _ => Ok it
    | None =>
        match it with
        | 0 => Err OutOfRange
        | S it' => skip_empty_back st it'
        end
    end
  else Ok it.

(** [HashMapIterator::operator--] *)
Definition iter_decr (st : HashMap) (it : nat) : result nat :=
  match it with
  | 0 => Err OutOfRange
  | S it' => skip_empty_back st it'
  end.

(** ** Invariants *)

Definition entries (st : HashMap) : list entry := omap id (table_ st).
Definition keys_of (st : HashMap) : list KeyType := (entries st).*1.

(** Slot [i] is occupied by an entry with key [key]. *)
Definition holds (st : HashMap) (i : nat) (key : KeyType) : Prop :=
  ∃ v, table_ st !! i = Some (Some (key, v)).

(** The shape of the vectors: the capacity is a power of two and both
    vectors have that length. *)
Definition wf (st : HashMap) : Prop :=
  (∃ e, capacity_ st = 2 ^ e) ∧
  length (table_ st) = capacity_ st ∧
  length (from_ st) = capacity_ st.

(** Every occupied slot records a displacement below [BLOCK_SIZE] that leads
    from the bucket of its key to the slot. *)
Definition displaced (st : HashMap) : Prop :=
  ∀ i k v, table_ st !! i = Some (Some (k, v)) →
    ∃ d, from_ st !! i = Some d ∧ d < BLOCK_SIZE st ∧
         (GetBucket st k + d) mod capacity_ st = i.

(** No recorded displacement of an occupied slot wraps around the table. *)
Definition near (st : HashMap) : Prop :=
  ∀ i k v d, table_ st !! i = Some (Some (k, v)) → from_ st !! i = Some d →
    d < capacity_ st.

(** What holds of the table all through [insert], also after a probe walk
    that failed. *)
Definition tbl_inv (st : HashMap) : Prop :=
  wf st ∧ displaced st ∧ NoDup (keys_of st).

(** What holds between public operations. *)
Definition inv (st : HashMap) : Prop :=
  tbl_inv st ∧ near st ∧ size_ st = length (entries st).

(** The number of entries of [values] whose key falls into bucket [b]. *)
Definition cluster (st : HashMap) (values : list entry) (b : nat) : nat :=
  length (filter (λ e, GetBucket st e.1 = b) values).

(** [insert] left the capacity and the probe limit as they were. *)
Definition same_params (st st' : HashMap) : Prop :=
  capacity_ st' = capacity_ st ∧ BLOCK_SIZE st' = BLOCK_SIZE st.

(** The capacity and the probe limit are those a [Rebuild] computed for
    some of the entries the table holds now. *)
Definition rebuilt (st : HashMap) : Prop :=
  ∃ values, values ⊆+ entries st
    ∧ capacity_ st = new_capacity (length values)
    ∧ BLOCK_SIZE st
      = Nat.max DEFAULT_BLOCK_SIZE
          (2 * max_element (cluster st values <$> seq 0 (capacity_ st))).

(** The table holds exactly the associations of the finite map [m]. *)
Definition represents (st : HashMap) (m : gmap KeyType ValueType) : Prop :=
  inv st ∧ entries st ≡ₚ map_to_list m.

(** A bound on the iterations left to a probe walk: the room the occupied
    slots have below the probe limit [B]. *)
Fixpoint slack (B : nat) (t : list (option entry)) (fr : list nat) : nat :=
  match t, fr with
  | o :: t', f :: fr' => (if o is Some _ then B - f else 0) + slack B t' fr'
  | _, _ => 0
  end.

(** What a call of [insert] that returns has done. *)
Definition insert_post (st : HashMap) (e : entry) (st' : HashMap) : Prop :=
  inv st' ∧
  ((e.1 ∈ keys_of st ∧ st' = st)
   ∨ ((e.1 ∉ keys_of st) ∧ (entries st' ≡ₚ e :: entries st)
      ∧ (same_params st st' ∨ rebuilt st'))).

Definition insert_ok (ins : HashMap → entry → result HashMap)
    : Prop :=
  ∀ st e st', inv st → ins st e = Ok st' → insert_post st e st'.

Definition rebuild_ok (rb : HashMap → result HashMap)
    : Prop :=
  ∀ st st', NoDup (keys_of st) → size_ st = length (entries st) → rb st = Ok st' →
    inv st' ∧ entries st' ≡ₚ entries st ∧ rebuilt st'.

(** An operation is safe when, started in a well-formed state, it ends in a
    well-formed state or runs out of fuel. *)
Definition safe (r : result HashMap) : Prop :=
  match r with
  | Ok st' => wf st'
  | Err err => err = OutOfFuel
  end.

(** The associations a table holds, as a finite map. *)
Definition contents (st : HashMap) : gmap KeyType ValueType :=
  list_to_map (entries st).

(** ** Sequences of public operations and their abstract meaning *)

Inductive op : Type :=
  | OpInsert (k : KeyType) (v : ValueType)
  | OpErase (k : KeyType)
  | OpIndex (k : KeyType)
  | OpAssign (k : KeyType) (v : ValueType)
  | OpClear.

Definition step (fuel : nat) (st : HashMap) (o : op) : result HashMap :=
  match o with
  | OpInsert k v => insert fuel st (k, v)
  | OpErase k => erase st k
  | OpIndex k => r ← index fuel st k; Ok r.1.1
  | OpAssign k v => index_assign fuel st k v
  | OpClear => clear st
  end.

Fixpoint run (fuel : nat) (ops : list op) (st : HashMap) : result HashMap :=
  match ops with
  | [] => Ok st
  | o :: ops' => st' ← step fuel st o; run fuel ops' st'
  end.

(** The key-value association a sequence of operations builds up: [insert]
    keeps the value of a key that is present, [erase] removes the key,
    [operator[]] adds the default value for a missing key, an assignment
    through its reference replaces the value. *)
Definition model_step (m : gmap KeyType ValueType) (o : op) : gmap KeyType ValueType :=
  match o with
  | OpInsert k v => if m !! k is Some _ then m else <[k := v]> m
  | OpErase k => delete k m
  | OpIndex k => if m !! k is Some _ then m else <[k := default_value]> m
  | OpAssign k v => <[k := v]> m
  | OpClear => ∅
  end.

Definition model (ops : list op) : gmap KeyType ValueType :=
  foldl model_step ∅ ops.

(** The states a client can observe: those some sequence of public
    operations, each run to completion, leads to from the empty table. *)
Inductive reachable : HashMap → list op → Prop :=
  | reachable_construct : reachable construct []
  | reachable_step st ops fuel o st' :
      reachable st ops → step fuel st o = Ok st' → reachable st' (ops ++ [o]).

(** The slot [FindPosition] examines in iteration [j] of its loop. *)
Definition probe_slot (st : HashMap) (key : KeyType) (j : nat) : nat :=
  Nat.iter j (GetNext st) (GetBucket st key).

End HashMap.

Arguments HashMap : clear implicits.
Arguments op : clear implicits.
Arguments GetBucket : simpl never.
Arguments GetNext : simpl never.
Arguments cluster : simpl never.
Arguments max_element : simpl never.
Arguments new_capacity : simpl never.
Arguments entries : simpl never.
Arguments keys_of : simpl never.


(** * Concrete tables

    The inputs the claims are tried on: their hash functors, operation
    sequences and the states these lead to. *)

Global Instance nat_default_value : DefaultValue nat := 0.
Global Instance string_default_value : DefaultValue string := "".

(** ** A table on which [insert] loops forever

    Keys [0 .. 67] under the hash functor [k ↦ k mod 4]. *)
Module StuckInsertInput.

#[export] Instance mod4_hash : Hash nat := λ k, k mod 4.

Definition ops : list (op nat nat) := (λ k, OpInsert k k) <$> seq 0 67.

Definition state : HashMap nat nat := get_or construct (run 3 ops construct).

(** The table and the carried entry after the probe walk of
    [insert (67, 67)], and the state after the [Rebuild] that follows. *)
Definition stuck_walked : HashMap nat nat * option (nat * nat) :=
  get_or (construct, None)
    (insert_probe (probe_bound state) state (Some (67, 67)) 0 (GetBucket state 67)).

Definition stuck_rebuilt : HashMap nat nat :=
  get_or construct (Rebuild 1 (fst stuck_walked)).

End StuckInsertInput.

(** ** A rebuild that ends above the load factor

    Keys are pairs hashed by their first component.  There are four crowded
    hash values, 0, 512, 1 and 2, and eleven keys of a hash value of their
    own.  At capacity 512 the hash values 0 and 512 share bucket 0; at
    capacity 1024 they do not. *)
Module CrowdedBucketsInput.

#[export] Instance fst_hash : Hash (nat * nat) := λ k, k.1.

Definition class (b n : nat) : list (nat * nat) := (λ i, (b, i)) <$> seq 0 n.

Definition crowd : list (nat * nat) :=
  class 0 23 ++ class 512 22 ++ class 1 20
  ++ [(512, 22)] ++ [(1, 20); (1, 21); (1, 22)]
  ++ class 2 23 ++ ((λ i, (i, 0)) <$> seq 200 11).

Definition crowd_ops : list (op (nat * nat) nat) := (λ k, OpInsert k k.2) <$> crowd.

Definition crowded : HashMap (nat * nat) nat :=
  get_or construct (run 4 crowd_ops construct).

Definition trigger : (nat * nat) * nat := ((2, 23), 23).

(** The table and the carried entry after the probe walk of
    [insert trigger], the state after the call of [Rebuild] that follows
    it, and the state in which [insert trigger] returns. *)
Definition walked : HashMap (nat * nat) nat * option ((nat * nat) * nat) :=
  get_or (construct, None)
    (insert_probe (probe_bound crowded) crowded (Some trigger) 0
       (GetBucket crowded (fst trigger))).

Definition after_rebuild : HashMap (nat * nat) nat :=
  get_or construct (Rebuild 3 (fst walked)).

Definition after_insert : HashMap (nat * nat) nat :=
  get_or construct (insert 4 crowded trigger).

End CrowdedBucketsInput.

(** ** The scenarios of the specification, under the identity hash *)
Module ScenariosInput.

#[export] Instance id_hash : Hash nat := λ k, k.

(** Scenario A: insert (1, a), (2, b), then (1, z). *)
Definition opsA : list (op nat string) := [OpInsert 1 "a"; OpInsert 2 "b"].
Definition stA : HashMap nat string := get_or construct (run 2 opsA construct).

(** Scenario C: insert 0 .. 9, then erase 5. *)
Definition ops10 : list (op nat nat) := (λ k, OpInsert k k) <$> seq 0 10.
Definition st10 : HashMap nat nat := get_or construct (run 3 ops10 construct).
Definition opsC : list (op nat nat) := ops10 ++ [OpErase 5].
Definition stC : HashMap nat nat := get_or construct (run 3 opsC construct).

End ScenariosInput.

(** Tables for the properties of the constructors, of [Rebuild] and of
    [insert] stated after the claims. *)
Module ExtrasInput.
Import ScenariosInput.

Definition range_list : list (nat * string) := [(1, "a"); (2, "b"); (1, "z")].
Definition st_range : HashMap nat string :=
  get_or construct (construct_range 2 range_list).
Definition st_copy : HashMap nat nat := get_or construct (construct_copy 3 stC).
Definition st_assigned : HashMap nat nat :=
  get_or construct (assign_from 3 st10 stC).
Definition st11 : HashMap nat nat := get_or construct (insert 1 st10 (42, 7)).
Definition st10_rebuilt : HashMap nat nat := get_or construct (Rebuild 2 st10).
Definition st10_prepared : HashMap nat nat :=
  (get_or (construct, []) (Rebuild_prepare st10)).1.
Definition st10_indexed : HashMap nat nat :=
  get_or construct (index_assign 1 st10 42 7).

End ExtrasInput.


(** * Verification *)

Section Verification.

Context {KeyType ValueType : Type} `{Countable KeyType}.
Context `{Hash KeyType} `{DefaultValue ValueType}.

Implicit Types st : HashMap KeyType ValueType.
Local Abbreviation entry := (KeyType * ValueType)%type.
Implicit Types e p : entry.
Implicit Types key k : KeyType.
Implicit Types values vs : list entry.

(** ** Masks and modular arithmetic *)

Lemma land_mask (x e : nat) : Nat.land x (2 ^ e - 1) = x mod 2 ^ e.
Proof.
  rewrite <- Nat.land_ones. f_equal. rewrite Nat.ones_equiv. lia.
Qed.

Lemma wf_capacity_pos st : wf st → 0 < capacity_ st.
Proof.
  intros [[e He] _]. rewrite He. apply Nat.neq_0_lt_0, Nat.pow_nonzero. lia.
Qed.

Lemma GetBucket_mod st key : wf st → GetBucket st key = hasher_ key mod capacity_ st.
Proof. intros [[e He] _]. unfold GetBucket. rewrite He. apply land_mask. Qed.

Lemma GetNext_mod st h : wf st → GetNext st h = (h + 1) mod capacity_ st.
Proof. intros [[e He] _]. unfold GetNext. rewrite He. apply land_mask. Qed.

Lemma GetBucket_lt st key : wf st → GetBucket st key < capacity_ st.
Proof.
  intros Hwf. rewrite GetBucket_mod by done.
  apply Nat.mod_upper_bound. pose proof (wf_capacity_pos st Hwf). lia.
Qed.

Lemma GetNext_lt st h : wf st → GetNext st h < capacity_ st.
Proof.
  intros Hwf. rewrite GetNext_mod by done.
  apply Nat.mod_upper_bound. pose proof (wf_capacity_pos st Hwf). lia.
Qed.

Lemma mod_succ_step (c x d h : nat) :
  0 < c → (x + d) mod c = h → (x + (d + 1)) mod c = (h + 1) mod c.
Proof.
  intros Hc <-. rewrite Nat.add_assoc.
  rewrite (Nat.Div0.add_mod (x + d) 1 c).
  rewrite (Nat.Div0.add_mod ((x + d) mod c) 1 c).
  by rewrite Nat.Div0.mod_mod.
Qed.

Lemma mod_add_step (c h j : nat) :
  0 < c → ((h + 1) mod c + j) mod c = (h + S j) mod c.
Proof.
  intros Hc. rewrite Nat.Div0.add_mod_idemp_l. f_equal. lia.
Qed.

(** ** Checked subscripts *)

Lemma read_Ok {A : Type} (l : list A) (i : nat) (x : A) :
  read l i = Ok x ↔ l !! i = Some x.
Proof. unfold read. destruct (l !! i); split; congruence. Qed.

Lemma read_lt {A : Type} (l : list A) (i : nat) :
  i < length l → ∃ x, read l i = Ok x ∧ l !! i = Some x.
Proof.
  intros Hi. destruct (lookup_lt_is_Some_2 l i Hi) as [x Hx].
  exists x. split; [by apply read_Ok | done].
Qed.

Lemma read_Err {A : Type} (l : list A) (i : nat) (err : error) :
  read l i = Err err → ¬ i < length l.
Proof.
  unfold read. intros Hr Hi.
  destruct (lookup_lt_is_Some_2 l i Hi) as [x Hx]. by rewrite Hx in Hr.
Qed.

Lemma read_Err_inv {A : Type} (l : list A) (i : nat) (err : error) :
  read l i = Err err → err = OutOfRange.
Proof. unfold read. destruct (l !! i); congruence. Qed.

(** ** FindPosition *)

Lemma FindPosition_loop_spec st key n h :
  wf st → h < capacity_ st →
  (FindPosition_loop st key n h = Ok (capacity_ st) ∧
   ∀ j, j < n → ¬ holds st ((h + j) mod capacity_ st) key)
  ∨ (∃ j, j < n ∧
       FindPosition_loop st key n h = Ok ((h + j) mod capacity_ st) ∧
       holds st ((h + j) mod capacity_ st) key ∧
       ∀ j', j' < j → ¬ holds st ((h + j') mod capacity_ st) key).
Proof.
  intros Hwf. pose proof (wf_capacity_pos st Hwf) as Hpos.
  revert h. induction n as [|n IH]; intros h Hh.
  { left. split; [done | intros j Hj; lia]. }
  assert (Hskip : ¬ holds st ((h + 0) mod capacity_ st) key →
    (FindPosition_loop st key n (GetNext st h) = Ok (capacity_ st) ∧
     ∀ j, j < S n → ¬ holds st ((h + j) mod capacity_ st) key)
    ∨ (∃ j, j < S n ∧
       FindPosition_loop st key n (GetNext st h) = Ok ((h + j) mod capacity_ st) ∧
       holds st ((h + j) mod capacity_ st) key ∧
       ∀ j', j' < j → ¬ holds st ((h + j') mod capacity_ st) key)).
  { intros Hno.
    destruct (IH (GetNext st h) (GetNext_lt st h Hwf)) as [[Heq Hall] | (j & Hj & Heq & Hhold & Hfirst)].
    - left. split; [done|]. intros [|j] Hj; [done|].
      rewrite <- mod_add_step, <- GetNext_mod by done. apply Hall. lia.
    - right. exists (S j). rewrite GetNext_mod in * by done.
      rewrite mod_add_step in * by done. split_and!; [lia | done | done |].
      intros [|j'] Hj'; [done|].
      rewrite <- mod_add_step by done. apply Hfirst. lia. }
  destruct Hwf as (_ & Hlen & _).
  destruct (read_lt (table_ st) h) as (slot & Hread & Hslot); [lia|].
  assert (Hh0 : (h + 0) mod capacity_ st = h).
  { rewrite Nat.add_0_r. by apply Nat.mod_small. }
  cbn [FindPosition_loop]. rewrite Hread. cbn.
  destruct slot as [[k v]|].
  - destruct (decide (k = key)) as [->|Hne].
    + right. exists 0. rewrite Hh0. split_and!; [lia | done | by exists v | intros; lia].
    + apply Hskip. rewrite Hh0. intros [v' Hv']. congruence.
  - apply Hskip. rewrite Hh0. intros [v' Hv']. congruence.
Qed.

Lemma FindPosition_spec st key :
  wf st →
  (FindPosition st key = Ok (capacity_ st) ∧
   ∀ j, j < BLOCK_SIZE st → ¬ holds st ((GetBucket st key + j) mod capacity_ st) key)
  ∨ (∃ j, j < BLOCK_SIZE st ∧
       FindPosition st key = Ok ((GetBucket st key + j) mod capacity_ st) ∧
       holds st ((GetBucket st key + j) mod capacity_ st) key ∧
       ∀ j', j' < j → ¬ holds st ((GetBucket st key + j') mod capacity_ st) key).
Proof.
  intros Hwf. apply FindPosition_loop_spec; [done | by apply GetBucket_lt].
Qed.

Lemma FindPosition_total st key :
  wf st → ∃ h, FindPosition st key = Ok h ∧ h ≤ capacity_ st.
Proof.
  intros Hwf. pose proof (wf_capacity_pos st Hwf) as Hpos.
  destruct (FindPosition_spec st key Hwf) as [[Heq _] | (j & _ & Heq & _)].
  - eauto.
  - eexists. split; [done|]. apply Nat.lt_le_incl, Nat.mod_upper_bound. lia.
Qed.

Lemma FindPosition_found st key h :
  wf st → FindPosition st key = Ok h → h ≠ capacity_ st →
  h < capacity_ st ∧ holds st h key.
Proof.
  intros Hwf Hf Hne. pose proof (wf_capacity_pos st Hwf) as Hpos.
  destruct (FindPosition_spec st key Hwf) as [[Heq _] | (j & _ & Heq & Hh & _)].
  - congruence.
  - rewrite Heq in Hf. simplify_eq. split; [|done].
    apply Nat.mod_upper_bound. lia.
Qed.

Lemma FindPosition_absent st key :
  wf st → FindPosition st key = Ok (capacity_ st) →
  ∀ j, j < BLOCK_SIZE st → ¬ holds st ((GetBucket st key + j) mod capacity_ st) key.
Proof.
  intros Hwf Hf. pose proof (wf_capacity_pos st Hwf) as Hpos.
  destruct (FindPosition_spec st key Hwf) as [[_ Hall] | (j & _ & Heq & _)]; [done|].
  rewrite Heq in Hf. simplify_eq.
  pose proof (Nat.mod_upper_bound (GetBucket st key + j) (capacity_ st)). lia.
Qed.

(** ** Entries and keys of a table *)

Lemma entries_lookup (t : list (option entry)) (i : nat) e :
  t !! i = Some (Some e) → e ∈ omap id t.
Proof.
  intros Hi. apply list_elem_of_omap. exists (Some e). split; [|done].
  by eapply list_elem_of_lookup_2.
Qed.

Lemma entries_elem_of (t : list (option entry)) e :
  e ∈ omap id t → ∃ i, t !! i = Some (Some e).
Proof.
  intros (o & Ho & Heq)%list_elem_of_omap. cbn in Heq. subst o.
  by apply list_elem_of_lookup_1.
Qed.

Lemma keys_lookup st i k v :
  table_ st !! i = Some (Some (k, v)) → k ∈ keys_of st.
Proof.
  intros Hi. apply list_elem_of_fmap. exists (k, v). split; [done|].
  by eapply entries_lookup.
Qed.

Lemma keys_elem_of st k :
  k ∈ keys_of st → ∃ i, holds st i k.
Proof.
  intros ([k' v] & -> & Hin)%list_elem_of_fmap.
  destruct (entries_elem_of _ _ Hin) as [i Hi]. exists i. by exists v.
Qed.

Lemma NoDup_keys_lookup (t : list (option entry)) (i j : nat) k v v' :
  NoDup (omap id t).*1 →
  t !! i = Some (Some (k, v)) → t !! j = Some (Some (k, v')) → i = j ∧ v = v'.
Proof.
  revert i j. induction t as [|o t IH]; intros i j Hnd Hi Hj; [by destruct i|].
  destruct o as [[k0 v0]|]; cbn in Hnd.
  - apply NoDup_cons in Hnd as [Hnotin Hnd].
    destruct i as [|i], j as [|j]; cbn in Hi, Hj; simplify_eq.
    + done.
    + exfalso. apply Hnotin. apply list_elem_of_fmap. exists (k, v'). split; [done|].
      by eapply entries_lookup.
    + exfalso. apply Hnotin. apply list_elem_of_fmap. exists (k, v). split; [done|].
      by eapply entries_lookup.
    + destruct (IH i j Hnd Hi Hj) as [-> ->]. done.
  - destruct i as [|i], j as [|j]; cbn in Hi, Hj; simplify_eq.
    destruct (IH i j Hnd Hi Hj) as [-> ->]. done.
Qed.

(** Under the table invariant [FindPosition] finds exactly the keys that
    occupy a slot. *)
Lemma FindPosition_present st key i v :
  tbl_inv st → table_ st !! i = Some (Some (key, v)) → FindPosition st key = Ok i.
Proof.
  intros (Hwf & Hdisp & Hnd) Hi.
  pose proof (wf_capacity_pos st Hwf) as Hpos.
  destruct (Hdisp i key v Hi) as (d & Hd & Hlt & Hpos_i).
  destruct (FindPosition_spec st key Hwf) as [[_ Hall] | (j & _ & Heq & [v' Hv'] & _)].
  - exfalso. apply (Hall d Hlt). rewrite Hpos_i. by exists v.
  - rewrite Heq. f_equal.
    by destruct (NoDup_keys_lookup _ _ _ _ _ _ Hnd Hv' Hi).
Qed.

Lemma FindPosition_not_in st key :
  tbl_inv st → key ∉ keys_of st → FindPosition st key = Ok (capacity_ st).
Proof.
  intros Hinv Hnotin. destruct Hinv as (Hwf & _).
  destruct (FindPosition_spec st key Hwf) as [[Heq _] | (j & _ & _ & [v Hv] & _)]; [done|].
  exfalso. apply Hnotin. by eapply keys_lookup.
Qed.

Lemma FindPosition_capacity_not_in st key :
  tbl_inv st → FindPosition st key = Ok (capacity_ st) → key ∉ keys_of st.
Proof.
  intros Hinv Hf [i [v Hi]]%keys_elem_of.
  pose proof (FindPosition_present st key i v Hinv Hi) as Hf'.
  destruct Hinv as ((_ & Hlen & _) & _).
  apply lookup_lt_Some in Hi. rewrite Hf in Hf'. simplify_eq. lia.
Qed.

Lemma omap_insert_perm (t : list (option entry)) (i : nat) (x y : option entry) :
  t !! i = Some y →
  option_list y ++ omap id (<[i := x]> t) ≡ₚ option_list x ++ omap id t.
Proof.
  revert i. induction t as [|o t IH]; intros i Hi; [by destruct i|].
  destruct i as [|i]; cbn in Hi.
  - simplify_eq. change (<[0 := x]> (y :: t)) with (x :: t).
    change (omap id (x :: t)) with (omap id ([x] ++ t)).
    change (omap id (y :: t)) with (omap id ([y] ++ t)).
    rewrite !omap_app.
    assert (Hone : ∀ z : option entry, omap id [z] = option_list z) by (by intros [?|]).
    rewrite !Hone, !app_assoc. f_equiv. apply Permutation_app_comm.
  - change (<[S i := x]> (o :: t)) with (o :: <[i := x]> t).
    change (omap id (o :: <[i := x]> t)) with (omap id ([o] ++ <[i := x]> t)).
    change (omap id (o :: t)) with (omap id ([o] ++ t)).
    rewrite !omap_app.
    rewrite (Permutation_app_swap_app (option_list y)).
    rewrite (Permutation_app_swap_app (option_list x)).
    f_equiv. by apply IH.
Qed.

Lemma keys_perm (l1 l2 : list entry) : l1 ≡ₚ l2 → l1.*1 ≡ₚ l2.*1.
Proof. intros Hp. by rewrite Hp. Qed.

(** ** The probe walk *)

Lemma insert_probe_None n st d h2 : insert_probe n st None d h2 = Ok (st, None).
Proof. by destruct n. Qed.

Lemma GetBucket_swap_slot st h2 ptr d key :
  GetBucket (swap_slot st h2 ptr d) key = GetBucket st key.
Proof. done. Qed.

Lemma swap_slot_inv st h2 e d slot :
  tbl_inv st → e.1 ∉ keys_of st →
  h2 = (GetBucket st e.1 + d) mod capacity_ st → d < BLOCK_SIZE st →
  table_ st !! h2 = Some slot →
  tbl_inv (swap_slot st h2 (Some e) d)
  ∧ option_list slot ++ entries (swap_slot st h2 (Some e) d) ≡ₚ e :: entries st.
Proof.
  intros (Hwf & Hdisp & Hnd) Hfresh Hh2 Hd Hslot.
  assert (Hperm : option_list slot ++ entries (swap_slot st h2 (Some e) d)
                  ≡ₚ e :: entries st).
  { unfold entries. cbn [table_ swap_slot].
    by rewrite (omap_insert_perm _ _ (Some e) slot Hslot). }
  split; [|done]. split_and!.
  - destruct Hwf as (He & Hl1 & Hl2). split_and!; cbn; [done | |];
      by rewrite length_insert.
  - intros i k v Hi. cbn [table_ from_ swap_slot BLOCK_SIZE capacity_] in *.
    rewrite GetBucket_swap_slot.
    destruct Hwf as (_ & Hl1 & Hl2).
    pose proof (lookup_lt_Some _ _ _ Hslot) as Hlt.
    destruct (decide (i = h2)) as [->|Hne].
    + rewrite list_lookup_insert_eq in Hi by done. simplify_eq.
      exists d. rewrite list_lookup_insert_eq by lia. done.
    + rewrite list_lookup_insert_ne in Hi by done.
      rewrite list_lookup_insert_ne by done. by eapply Hdisp.
  - assert (Hnd' : NoDup ((option_list slot).*1 ++ keys_of (swap_slot st h2 (Some e) d))).
    { unfold keys_of. rewrite <- fmap_app, (keys_perm _ _ Hperm). cbn.
      by apply NoDup_cons. }
    by apply NoDup_app in Hnd' as (_ & _ & ?).
Qed.

Lemma insert_probe_spec n st e d h2 st' ptr' :
  tbl_inv st → e.1 ∉ keys_of st →
  h2 = (GetBucket st e.1 + d) mod capacity_ st →
  insert_probe n st (Some e) d h2 = Ok (st', ptr') →
  tbl_inv st' ∧ capacity_ st' = capacity_ st ∧ BLOCK_SIZE st' = BLOCK_SIZE st
  ∧ size_ st' = size_ st
  ∧ option_list ptr' ++ entries st' ≡ₚ e :: entries st.
Proof.
  revert st e d h2. induction n as [|n IH]; intros st e d h2 Hinv Hfresh Hh2 Hrun;
    cbn [insert_probe] in Hrun.
  { case_decide; simplify_eq. done. }
  case_decide as Hd; [|by simplify_eq].
  pose proof Hinv as (Hwf & Hdisp & Hnd).
  pose proof (wf_capacity_pos st Hwf) as Hpos.
  destruct (read (table_ st) h2) as [slot|] eqn:Hslot; [|done].
  destruct (read (from_ st) h2) as [f|] eqn:Hf; [|done].
  cbn in Hrun. apply read_Ok in Hslot, Hf.
  case_decide as Hswap.
  - destruct (swap_slot_inv st h2 e d slot Hinv Hfresh Hh2 Hd Hslot) as [Hinv1 Hperm1].
    destruct slot as [e0|].
    + destruct Hswap as [?|Hlt]; [done|].
      destruct e0 as [k0 v0].
      destruct (Hdisp h2 k0 v0 Hslot) as (d0 & Hd0 & Hd0lt & Hd0pos).
      assert (d0 = f) as -> by congruence.
      apply IH in Hrun as (Hinv' & Hc & Hb & Hs & Hperm'); first 1 last.
      * done.
      * assert (Hnd' : NoDup (((k0, v0) :: entries (swap_slot st h2 (Some e) d)).*1)).
        { cbn in Hperm1. rewrite (keys_perm _ _ Hperm1). cbn. by apply NoDup_cons. }
        cbn in Hnd'. by apply NoDup_cons in Hnd' as [? _].
      * rewrite GetBucket_swap_slot. cbn [capacity_ swap_slot fst].
        rewrite GetNext_mod by done. symmetry. by apply mod_succ_step.
      * split_and!; try done. rewrite Hperm'. done.
    + rewrite insert_probe_None in Hrun. simplify_eq. by split_and!.
  - apply IH in Hrun; first 1 last; try done.
    rewrite GetNext_mod by done. symmetry. by apply mod_succ_step.
Qed.

Lemma swap_slot_wf st h2 ptr d : wf st → wf (swap_slot st h2 ptr d).
Proof.
  intros (He & Hl1 & Hl2). split_and!; cbn; [done | |]; by rewrite length_insert.
Qed.

(** Within a well-formed table the walk makes no access out of range. *)
Lemma insert_probe_err n st ptr d h2 err :
  wf st → h2 < capacity_ st →
  insert_probe n st ptr d h2 = Err err → err = OutOfFuel.
Proof.
  revert st ptr d h2. induction n as [|n IH]; intros st ptr d h2 Hwf Hh2 Hrun;
    cbn [insert_probe] in Hrun; destruct ptr as [e|]; try done.
  { case_decide; by simplify_eq. }
  case_decide; [|done].
  pose proof Hwf as (_ & Hl1 & Hl2).
  destruct (read_lt (table_ st) h2) as (slot & Hr1 & _); [lia|].
  destruct (read_lt (from_ st) h2) as (f & Hr2 & _); [lia|].
  rewrite Hr1, Hr2 in Hrun. cbn in Hrun. case_decide.
  - eapply IH in Hrun; [done | by apply swap_slot_wf |].
    cbn. by apply GetNext_lt.
  - eapply IH in Hrun; [done | done | by apply GetNext_lt].
Qed.

Lemma slack_le B (t : list (option entry)) fr : slack B t fr ≤ length t * B.
Proof.
  revert fr. induction t as [|o t IH]; intros [|f fr]; cbn; try lia.
  specialize (IH fr). destruct o; lia.
Qed.

Lemma slack_insert B (t : list (option entry)) fr i e e0 f d :
  t !! i = Some (Some e0) → fr !! i = Some f → f < d → d < B →
  slack B (<[i := Some e]> t) (<[i := d]> fr) + (B - f) = slack B t fr + (B - d).
Proof.
  revert fr i. induction t as [|o t IH]; intros [|f' fr] [|i] Ht Hf Hfd HdB;
    simplify_eq/=; try lia.
  specialize (IH fr i Ht Hf Hfd HdB). lia.
Qed.

Lemma insert_probe_fuel n st ptr d h2 :
  slack (BLOCK_SIZE st) (table_ st) (from_ st) + (BLOCK_SIZE st - d) ≤ n →
  insert_probe n st ptr d h2 ≠ Err OutOfFuel.
Proof.
  revert st ptr d h2. induction n as [|n IH]; intros st ptr d h2 Hn;
    cbn [insert_probe]; destruct ptr as [e|]; try done.
  { case_decide; [lia | done]. }
  case_decide as Hd; [|done].
  destruct (read (table_ st) h2) as [slot|] eqn:Hslot;
    [|by apply read_Err_inv in Hslot as ->].
  destruct (read (from_ st) h2) as [f|] eqn:Hf;
    [|by apply read_Err_inv in Hf as ->].
  cbn. apply read_Ok in Hslot, Hf. case_decide as Hswap.
  - destruct slot as [e0|]; [|by rewrite insert_probe_None].
    destruct Hswap as [?|Hlt]; [done|].
    apply IH. cbn [BLOCK_SIZE table_ from_ swap_slot].
    pose proof (slack_insert (BLOCK_SIZE st) _ _ h2 e e0 f d Hslot Hf Hlt Hd). lia.
  - apply IH. lia.
Qed.

Lemma insert_probe_total st e h2 :
  wf st → h2 < capacity_ st →
  ∃ st' ptr', insert_probe (probe_bound st) st (Some e) 0 h2 = Ok (st', ptr').
Proof.
  intros Hwf Hh2.
  destruct (insert_probe (probe_bound st) st (Some e) 0 h2) as [[st' ptr']|err] eqn:Hrun;
    [by eauto|].
  pose proof (insert_probe_err _ _ _ _ _ _ Hwf Hh2 Hrun) as ->.
  exfalso. revert Hrun. apply insert_probe_fuel. unfold probe_bound.
  pose proof (slack_le (BLOCK_SIZE st) (table_ st) (from_ st)). lia.
Qed.

(** A walk over a table without a free slot ends with an entry in hand. *)
Lemma insert_probe_full n st e d h2 st' ptr' :
  wf st → (∀ i, i < capacity_ st → ∃ e0, table_ st !! i = Some (Some e0)) →
  h2 < capacity_ st →
  insert_probe n st (Some e) d h2 = Ok (st', ptr') → ptr' ≠ None.
Proof.
  revert st e d h2. induction n as [|n IH]; intros st e d h2 Hwf Hfull Hh2 Hrun;
    cbn [insert_probe] in Hrun.
  { case_decide; by simplify_eq. }
  case_decide; [|by simplify_eq].
  destruct (Hfull h2 Hh2) as [e0 He0].
  pose proof He0 as Hr%read_Ok. rewrite Hr in Hrun.
  destruct (read (from_ st) h2) as [f|]; [|done].
  cbn in Hrun. case_decide.
  - eapply IH in Hrun; [done | by apply swap_slot_wf | | cbn; by apply GetNext_lt].
    intros i Hi. cbn [table_ swap_slot]. destruct (decide (i = h2)) as [->|Hne].
    + exists e. apply list_lookup_insert_eq. by eapply lookup_lt_Some.
    + rewrite list_lookup_insert_ne by done. by apply Hfull.
  - eapply IH in Hrun; [done | done | done | by apply GetNext_lt].
Qed.

Lemma mod_reach (c s i : nat) : i < c → ∃ j, j < c ∧ (s + j) mod c = i.
Proof.
  intros Hi. exists ((i + (c - s mod c)) mod c).
  split; [apply Nat.mod_upper_bound; lia|].
  rewrite Nat.Div0.add_mod_idemp_r.
  pose proof (Nat.div_mod_eq s c) as Hs.
  pose proof (Nat.mod_upper_bound s c ltac:(lia)) as Hr.
  replace (s + (i + (c - s mod c))) with (i + (s / c + 1) * c) by nia.
  rewrite Nat.Div0.mod_add. by apply Nat.mod_small.
Qed.

Lemma mod_wrap (c s t : nat) : c ≤ t → (s + t) mod c = (s + (t - c)) mod c.
Proof.
  intros Ht. replace (s + t) with (s + (t - c) + 1 * c) by lia.
  by rewrite Nat.Div0.mod_add.
Qed.

(** A successful walk writes no displacement that wraps around the table:
    after [t] steps the [t] slots behind the walk are occupied, and the
    carried displacement is at most [t]. *)
Lemma insert_probe_near n st e d s t st' :
  wf st → near st → d ≤ t →
  (∀ j, j < t → ∃ e0, table_ st !! ((s + j) mod capacity_ st) = Some (Some e0)) →
  insert_probe n st (Some e) d ((s + t) mod capacity_ st) = Ok (st', None) →
  near st'.
Proof.
  revert st e d t. induction n as [|n IH]; intros st e d t Hwf Hnear Hdt Hwin Hrun.
  { cbn [insert_probe] in Hrun. case_decide; by simplify_eq. }
  pose proof (wf_capacity_pos st Hwf) as Hpos.
  assert (Hh2 : (s + t) mod capacity_ st < capacity_ st)
    by (apply Nat.mod_upper_bound; lia).
  destruct (decide (t < capacity_ st)) as [Ht|Ht]; last first.
  { exfalso. eapply insert_probe_full in Hrun; [done | done | | done].
    intros i Hi. destruct (mod_reach (capacity_ st) s i Hi) as (j & Hj & <-).
    apply Hwin. lia. }
  cbn [insert_probe] in Hrun.
  case_decide as Hd; [|by simplify_eq].
  destruct (read (table_ st) _) as [slot|] eqn:Hslot; [|done].
  destruct (read (from_ st) _) as [f|] eqn:Hf; [|done].
  cbn in Hrun. apply read_Ok in Hslot, Hf.
  assert (Hnext : GetNext st ((s + t) mod capacity_ st) = (s + S t) mod capacity_ st).
  { rewrite GetNext_mod by done. rewrite Nat.Div0.add_mod_idemp_l. f_equal. lia. }
  rewrite Hnext in Hrun.
  assert (Hnear1 : near (swap_slot st ((s + t) mod capacity_ st) (Some e) d)).
  { intros i k v d' Hi Hd'. cbn [table_ from_ swap_slot capacity_] in *.
    destruct (decide (i = (s + t) mod capacity_ st)) as [->|Hne].
    - rewrite list_lookup_insert_eq in Hd' by (by eapply lookup_lt_Some).
      simplify_eq. lia.
    - rewrite list_lookup_insert_ne in Hi by done.
      rewrite list_lookup_insert_ne in Hd' by done. by eapply Hnear. }
  case_decide as Hswap.
  - destruct slot as [e0|]; [|rewrite insert_probe_None in Hrun; by simplify_eq].
    destruct Hswap as [?|Hlt]; [done|].
    apply (IH (swap_slot st ((s + t) mod capacity_ st) (Some e) d) e0 (f + 1) (S t));
      [by apply swap_slot_wf | done | lia | | exact Hrun].
    intros j Hj. cbn [table_ swap_slot capacity_].
    destruct (decide ((s + j) mod capacity_ st = (s + t) mod capacity_ st)) as [->|Hne].
    + exists e. apply list_lookup_insert_eq. by eapply lookup_lt_Some.
    + rewrite list_lookup_insert_ne by done. apply Hwin.
      destruct (decide (j = t)) as [->|]; [done | lia].
  - apply (IH st e (d + 1) (S t)); [done | done | lia | | exact Hrun].
    intros j Hj. destruct (decide (j = t)) as [->|]; [|apply Hwin; lia].
    destruct slot as [e0|]; [by eauto|]. exfalso. apply Hswap. by left.
Qed.

(** ** Rebuild: the new capacity and the new probe limit *)

Lemma grow_capacity_spec n sz a :
  sz * STANDARD_DIFF ≤ 2 ^ (a + n) →
  (∀ a', a' < a → 2 ^ a' < sz * STANDARD_DIFF) →
  ∃ a1, grow_capacity n sz (2 ^ a) = 2 ^ a1 ∧ sz * STANDARD_DIFF ≤ 2 ^ a1
        ∧ ∀ a', a' < a1 → 2 ^ a' < sz * STANDARD_DIFF.
Proof.
  revert a. induction n as [|n IH]; intros a Hfuel Hmin; cbn [grow_capacity].
  { exists a. by rewrite Nat.add_0_r in Hfuel. }
  case_decide as Hlt.
  - rewrite Nat.shiftl_mul_pow2, Nat.pow_1_r, Nat.mul_comm, <- Nat.pow_succ_r'.
    apply IH.
    + by replace (S a + n) with (a + S n) by lia.
    + intros a' Ha'. destruct (decide (a' = a)) as [->|]; [done|]. apply Hmin. lia.
  - exists a. split_and!; [done | lia | done].
Qed.

(** The new capacity is the smallest power of two that is at least
    [STANDARD_DIFF] times the size. *)
Lemma new_capacity_spec sz :
  ∃ a, new_capacity sz = 2 ^ a ∧ sz * STANDARD_DIFF ≤ 2 ^ a
       ∧ ∀ a', sz * STANDARD_DIFF ≤ 2 ^ a' → a ≤ a'.
Proof.
  destruct (grow_capacity_spec (sz * STANDARD_DIFF) sz 0) as (a & Heq & Hle & Hmin).
  - cbn [Nat.add]. apply Nat.lt_le_incl, Nat.pow_gt_lin_r. lia.
  - intros a' Ha'. lia.
  - exists a. split_and!; [done | done |].
    intros a' Ha'. destruct (decide (a ≤ a')) as [|Hn]; [done|].
    specialize (Hmin a'). lia.
Qed.

Lemma new_capacity_0 : new_capacity 0 = 1.
Proof. done. Qed.

Lemma new_capacity_ge sz : 0 < sz → 8 ≤ new_capacity sz.
Proof.
  intros Hsz. destruct (new_capacity_spec sz) as (a & -> & Hle & _).
  unfold STANDARD_DIFF in Hle.
  destruct a as [|[|[|a]]]; cbn in Hle; try lia.
  rewrite !Nat.pow_succ_r'. pose proof (Nat.pow_nonzero 2 a). lia.
Qed.

Lemma max_element_cons (y : nat) (cnt : list nat) :
  max_element (y :: cnt) = Nat.max y (max_element cnt).
Proof. done. Qed.

Lemma max_element_ge (cnt : list nat) (x : nat) : x ∈ cnt → x ≤ max_element cnt.
Proof.
  induction cnt as [|y cnt IH]; [by intros ?%elem_of_nil|].
  rewrite max_element_cons.
  intros [->|Hin]%elem_of_cons; [lia|]. specialize (IH Hin). lia.
Qed.

Lemma max_element_le (cnt : list nat) (m : nat) :
  (∀ x, x ∈ cnt → x ≤ m) → max_element cnt ≤ m.
Proof.
  induction cnt as [|y cnt IH]; intros Hall; [unfold max_element; cbn; lia|].
  rewrite max_element_cons.
  pose proof (Hall y ltac:(left)).
  assert (max_element cnt ≤ m) by (apply IH; intros x Hx; apply Hall; by right).
  lia.
Qed.

Lemma max_element_elem_of (cnt : list nat) : cnt ≠ [] → max_element cnt ∈ cnt.
Proof.
  induction cnt as [|y cnt IH]; [done|]. intros _.
  rewrite max_element_cons.
  destruct cnt as [|z cnt].
  - change (max_element []) with 0. rewrite Nat.max_0_r. left.
  - destruct (Nat.max_spec y (max_element (z :: cnt))) as [[_ ->]|[_ ->]].
    + right. by apply IH.
    + left.
Qed.

Lemma cluster_capacity st st' values b :
  capacity_ st' = capacity_ st → cluster st' values b = cluster st values b.
Proof. intros Hc. unfold cluster, GetBucket. by rewrite Hc. Qed.

Lemma cluster_cons st e values b :
  cluster st (e :: values) b
  = (if decide (GetBucket st e.1 = b) then 1 else 0) + cluster st values b.
Proof. unfold cluster. rewrite filter_cons. by case_decide. Qed.

Lemma count_buckets_spec st values cnt :
  wf st → length cnt = capacity_ st →
  ∃ cnt', count_buckets st values cnt = Ok cnt' ∧ length cnt' = capacity_ st
          ∧ ∀ b c, cnt !! b = Some c → cnt' !! b = Some (c + cluster st values b).
Proof.
  intros Hwf. revert cnt. induction values as [|e values IH]; intros cnt Hlen.
  { exists cnt. split_and!; [done | done |]. intros b c ->. f_equal. unfold cluster. cbn. lia. }
  cbn [count_buckets].
  pose proof (GetBucket_lt st e.1 Hwf) as Hb.
  destruct (read_lt cnt (GetBucket st e.1)) as (c0 & -> & Hc0); [lia|]. cbn.
  destruct (IH (<[GetBucket st e.1 := S c0]> cnt)) as (cnt' & -> & Hlen' & Hcnt').
  { by rewrite length_insert. }
  exists cnt'. split_and!; [done | done |].
  intros b c Hbc. rewrite cluster_cons. case_decide as Heq.
  - subst b. rewrite (Hcnt' _ (S c0)).
    + simplify_eq. f_equal. lia.
    + apply list_lookup_insert_eq. lia.
  - rewrite (Hcnt' b c); [done|]. by rewrite list_lookup_insert_ne.
Qed.

Lemma count_buckets_clusters st values :
  wf st →
  count_buckets st values (replicate (capacity_ st) 0)
  = Ok (cluster st values <$> seq 0 (capacity_ st)).
Proof.
  intros Hwf.
  destruct (count_buckets_spec st values (replicate (capacity_ st) 0) Hwf)
    as (cnt' & -> & Hlen & Hcnt); [by rewrite length_replicate|].
  f_equal. apply list_eq_same_length with (capacity_ st);
    [by rewrite length_fmap, length_seq | done |].
  intros b x y Hb Hx Hy.
  rewrite (Hcnt b 0) in Hx by (by apply lookup_replicate_2).
  rewrite list_lookup_fmap, lookup_seq_lt in Hy by done.
  cbn in Hx, Hy. congruence.
Qed.

Lemma fmap_None_replicate (t : list (option entry)) :
  (λ _, None) <$> t = replicate (length t) (@None entry).
Proof. induction t; cbn; congruence. Qed.

Lemma omap_replicate_None n : omap id (replicate n (@None entry)) = [].
Proof. induction n; cbn; done. Qed.

(** The state [Rebuild] reaches before it reinserts the collected entries. *)
Lemma Rebuild_prepare_spec st :
  ∃ st0, Rebuild_prepare st = Ok (st0, entries st)
    ∧ size_ st0 = 0
    ∧ capacity_ st0 = new_capacity (size_ st)
    ∧ BLOCK_SIZE st0
      = Nat.max DEFAULT_BLOCK_SIZE
          (2 * max_element (cluster st0 (entries st) <$> seq 0 (capacity_ st0)))
    ∧ table_ st0 = replicate (capacity_ st0) None
    ∧ length (from_ st0) = capacity_ st0.
Proof.
  unfold Rebuild_prepare.
  set (cap := new_capacity (size_ st)).
  set (st1 := {| size_ := size_ st; capacity_ := cap; BLOCK_SIZE := BLOCK_SIZE st;
                 table_ := resize cap None ((λ _, None) <$> table_ st);
                 from_ := resize cap 0 (from_ st) |}).
  assert (Hwf1 : wf st1).
  { split_and!; cbn.
    - destruct (new_capacity_spec (size_ st)) as (a & Ha & _). by exists a.
    - by rewrite length_resize.
    - by rewrite length_resize. }
  pose proof (count_buckets_clusters st1 (entries st) Hwf1) as Hcnt.
  cbn [capacity_ st1] in Hcnt. unfold entries in Hcnt at 1. rewrite Hcnt. cbn.
  eexists. split; [reflexivity|]. cbn. split_and!; try done.
  - rewrite fmap_None_replicate, resize_replicate. done.
  - by rewrite length_resize.
Qed.

(** ** insert and Rebuild keep the invariant and the entries *)

Lemma find_FindPosition st key : wf st → find st key = FindPosition st key.
Proof.
  intros Hwf. unfold find. destruct (FindPosition_total st key Hwf) as (h & -> & _).
  cbn. destruct Hwf as (_ & Hlen & _). unfold end_. rewrite Hlen.
  case_decide; [done|]. f_equal. by destruct (decide (h = capacity_ st)).
Qed.

Lemma end_capacity st : wf st → end_ st = capacity_ st.
Proof. by intros (_ & Hlen & _). Qed.

Lemma entries_replicate st :
  table_ st = replicate (capacity_ st) None → entries st = [].
Proof. unfold entries. intros ->. apply omap_replicate_None. Qed.

Lemma prepared_inv st :
  (∃ a, capacity_ st = 2 ^ a) → size_ st = 0 →
  table_ st = replicate (capacity_ st) None → length (from_ st) = capacity_ st →
  inv st.
Proof.
  intros Hpow Hsz Ht Hf.
  assert (Hno : ∀ i k v, table_ st !! i = Some (Some (k, v)) → False).
  { intros i k v. rewrite Ht. by intros [? _]%lookup_replicate_1. }
  split; [split; [|split] | split].
  - split_and!; [done | by rewrite Ht, length_replicate | done].
  - intros i k v Hi. by destruct (Hno i k v).
  - unfold keys_of. rewrite (entries_replicate st Ht). constructor.
  - intros i k v d Hi. by destruct (Hno i k v).
  - by rewrite (entries_replicate st Ht).
Qed.

Lemma rebuilt_mono st1 st2 :
  rebuilt st1 → same_params st1 st2 → entries st1 ⊆+ entries st2 → rebuilt st2.
Proof.
  intros (values & Hsub & Hc & Hb) [Hc' Hb'] Hsub'. exists values. split_and!.
  - by etrans.
  - congruence.
  - rewrite Hb', Hc', Hb. do 3 f_equal.
    apply list_fmap_ext. intros _ b _. symmetry. by apply cluster_capacity.
Qed.

Lemma params_trans st st1 st2 :
  same_params st st1 ∨ rebuilt st1 → entries st1 ⊆+ entries st2 →
  same_params st1 st2 ∨ rebuilt st2 →
  same_params st st2 ∨ rebuilt st2.
Proof.
  intros [[Hc Hb]|Hr] Hsub [[Hc' Hb']|Hr']; try by right.
  - left. split; congruence.
  - right. by eapply rebuilt_mono.
Qed.

Lemma insert_all_ok ins values st st' :
  insert_ok ins → inv st → NoDup (values.*1 ++ keys_of st) →
  insert_all ins st values = Ok st' →
  inv st' ∧ entries st' ≡ₚ values ++ entries st ∧ (same_params st st' ∨ rebuilt st').
Proof.
  intros Hins. revert st. induction values as [|e values IH]; intros st Hinv Hnd Hrun.
  { cbn in Hrun. simplify_eq. split_and!; [done | done | by left]. }
  cbn [insert_all] in Hrun.
  destruct (ins st e) as [st1|] eqn:Hstep; [|done]. cbn in Hrun.
  cbn in Hnd. apply NoDup_cons in Hnd as [Hfresh Hnd].
  destruct (Hins st e st1 Hinv Hstep) as (Hinv1 & [[Hin _]|(_ & Hperm & Hpar)]).
  { exfalso. apply Hfresh. apply elem_of_app. by right. }
  destruct (IH st1 Hinv1) as (Hinv' & Hperm' & Hpar'); [|done|].
  { unfold keys_of at 1. rewrite (keys_perm _ _ Hperm). cbn.
    apply NoDup_app in Hnd as (Hnd1 & Hdisj & Hnd2).
    apply NoDup_app. split_and!; [done | | ].
    - intros x Hx [->|Hx']%elem_of_cons.
      + apply Hfresh. apply elem_of_app. by left.
      + by eapply Hdisj.
    - apply NoDup_cons. split; [|done]. intros Hin. apply Hfresh.
      apply elem_of_app. by right. }
  split_and!; [done | |].
  - rewrite Hperm', Hperm. cbn. by rewrite Permutation_middle.
  - eapply params_trans; [done | | done].
    rewrite Hperm'. by apply submseteq_inserts_l.
Qed.

Lemma Rebuild_with_ok (ins : HashMap KeyType ValueType → entry → result (HashMap KeyType ValueType)) :
  insert_ok ins → rebuild_ok (Rebuild_with ins).
Proof.
  intros Hins st st' Hnd Hsz Hrun. unfold Rebuild_with in Hrun.
  destruct (Rebuild_prepare_spec st) as (st0 & Hprep & Hs0 & Hc0 & Hb0 & Ht0 & Hf0).
  rewrite Hprep in Hrun. cbn in Hrun.
  assert (Hinv0 : inv st0).
  { apply prepared_inv; try done.
    destruct (new_capacity_spec (size_ st)) as (a & Ha & _). exists a. congruence. }
  pose proof (entries_replicate st0 Ht0) as He0.
  destruct (insert_all_ok ins (entries st) st0 st' Hins Hinv0) as (Hinv' & Hperm & Hpar);
    [|done|].
  { unfold keys_of at 1. rewrite He0. cbn. by rewrite app_nil_r. }
  rewrite He0, app_nil_r in Hperm. split_and!; [done | done |].
  destruct Hpar as [[Hc Hb]|Hr]; [|done].
  exists (entries st). split_and!.
  - by rewrite Hperm.
  - congruence.
  - rewrite Hb, Hc, Hb0. do 3 f_equal.
    apply list_fmap_ext. intros _ b _. symmetry. by apply cluster_capacity.
Qed.

Lemma with_size_inv st n :
  tbl_inv st → near st → n = length (entries st) → inv (with_size st n).
Proof. intros (Hwf & Hdisp & Hnd) Hnear ->. done. Qed.

Lemma insert_loop_ok rb n st e st' :
  rebuild_ok rb →
  tbl_inv st → near st → size_ st = length (entries st) → e.1 ∉ keys_of st →
  insert_loop rb n st e = Ok st' →
  inv st' ∧ entries st' ≡ₚ e :: entries st ∧ (same_params st st' ∨ rebuilt st').
Proof.
  intros Hrb. revert st e. induction n as [|n IH];
    intros st e Hinv Hnear Hsz Hfresh Hrun; [done|].
  cbn [insert_loop] in Hrun.
  pose proof Hinv as (Hwf & _ & _).
  pose proof (wf_capacity_pos st Hwf) as Hpos.
  pose proof (GetBucket_lt st e.1 Hwf) as Hb.
  destruct (insert_probe _ st (Some e) 0 _) as [[st1 ptr1]|] eqn:Hprobe; [|done].
  cbn in Hrun.
  destruct (insert_probe_spec _ _ _ _ _ _ _ Hinv Hfresh
              ltac:(by rewrite Nat.add_0_r, Nat.mod_small) Hprobe)
    as (Hinv1 & Hc1 & Hb1 & Hs1 & Hperm1).
  destruct ptr1 as [p|]; cbn in Hperm1.
  - destruct (rb st1) as [st2|] eqn:Hreb; [|done]. cbn in Hrun.
    assert (Hlen1 : length (entries st1) = length (entries st)).
    { apply Permutation_length in Hperm1. cbn in Hperm1. lia. }
    destruct (Hrb st1 st2) as (Hinv2 & Hperm2 & Hr2);
      [by destruct Hinv1 as (_ & _ & ?) | lia | done |].
    assert (Hnd1 : NoDup ((p :: entries st1).*1)).
    { rewrite (keys_perm _ _ Hperm1). cbn. apply NoDup_cons. split; [done|].
      by destruct Hinv as (_ & _ & ?). }
    cbn in Hnd1. apply NoDup_cons in Hnd1 as [Hp _].
    destruct (IH st2 p) as (Hinv' & Hperm' & Hpar');
      [by destruct Hinv2 | by destruct Hinv2 as (_ & ? & _)
       | by destruct Hinv2 as (_ & _ & ?)
       | by unfold keys_of; rewrite Hperm2 | done |].
    split_and!; [done | by rewrite Hperm', Hperm2 |].
    right. destruct Hpar' as [Hsame|?]; [|done].
    eapply rebuilt_mono; [done | done |]. rewrite Hperm'. by apply submseteq_cons.
  - simplify_eq. split_and!.
    + apply with_size_inv; [done | |].
      * eapply (insert_probe_near _ st e 0 (GetBucket st e.1) 0);
          [done | done | lia | intros; lia |].
        rewrite Nat.add_0_r, Nat.mod_small by done. exact Hprobe.
      * apply Permutation_length in Hperm1. cbn in Hperm1. lia.
    + done.
    + left. done.
Qed.

Lemma insert_ok_fuel fuel : insert_ok (ValueType := ValueType) (insert fuel).
Proof.
  induction fuel as [|fuel IH]; intros st e st' Hinv Hrun; [done|].
  cbn [insert] in Hrun.
  pose proof Hinv as (Htbl & Hnear & Hsz). pose proof Htbl as (Hwf & _ & _).
  rewrite find_FindPosition, end_capacity in Hrun by done.
  destruct (FindPosition_total st e.1 Hwf) as (h & Hh & _).
  rewrite Hh in Hrun. cbn in Hrun. case_decide as Hfound.
  - injection Hrun as <-. split; [done|]. left. split; [|done].
    destruct (FindPosition_found st e.1 h Hwf Hh Hfound) as [_ [v Hv]].
    by eapply keys_lookup.
  - subst h.
    pose proof (FindPosition_capacity_not_in st e.1 Htbl Hh) as Hfresh.
    destruct (insert_loop_ok _ (S fuel) _ _ _ (Rebuild_with_ok _ IH) Htbl Hnear Hsz Hfresh Hrun)
      as (Hinv' & Hperm & Hpar).
    split; [done|]. right. done.
Qed.

Lemma Rebuild_ok fuel : rebuild_ok (ValueType := ValueType) (Rebuild fuel).
Proof. apply Rebuild_with_ok, insert_ok_fuel. Qed.

(** ** The table as a finite map *)

Lemma represents_lookup st (m : gmap KeyType ValueType) k v :
  represents st m →
  m !! k = Some v ↔ ∃ i, table_ st !! i = Some (Some (k, v)).
Proof.
  intros [_ Hperm]. rewrite <- elem_of_map_to_list, <- Hperm. split.
  - apply entries_elem_of.
  - intros [i Hi]. by eapply entries_lookup.
Qed.

Lemma represents_keys st (m : gmap KeyType ValueType) k :
  represents st m → k ∈ keys_of st ↔ is_Some (m !! k).
Proof.
  intros Hrep. split.
  - intros [i [v Hi]]%keys_elem_of. exists v.
    apply (represents_lookup st m k v Hrep). eauto.
  - intros [v Hv]. apply (represents_lookup st m k v Hrep) in Hv as [i Hi].
    by eapply keys_lookup.
Qed.

Lemma FindPosition_model_Some st (m : gmap KeyType ValueType) k v :
  represents st m → m !! k = Some v →
  ∃ h, FindPosition st k = Ok h ∧ h < capacity_ st
       ∧ table_ st !! h = Some (Some (k, v)).
Proof.
  intros Hrep Hm. pose proof Hrep as [((Hwf & ?) & _) _].
  apply (represents_lookup st m k v Hrep) in Hm as [h Hh].
  exists h. split_and!; [| |done].
  - eapply FindPosition_present; [|done]. by destruct Hrep as [[? _] _].
  - destruct Hwf as (_ & <- & _). by eapply lookup_lt_Some.
Qed.

Lemma FindPosition_model_None st (m : gmap KeyType ValueType) k :
  represents st m → m !! k = None → FindPosition st k = Ok (capacity_ st).
Proof.
  intros Hrep Hm. apply FindPosition_not_in; [by destruct Hrep as [[? _] _]|].
  rewrite (represents_keys st m k Hrep), Hm. by intros [? ?].
Qed.

(** ** erase, clear and assignment through a reference *)

Lemma table_update_inv st (t' : list (option entry)) n :
  wf st → displaced st → near st → length t' = length (table_ st) →
  (∀ i k v, t' !! i = Some (Some (k, v)) → ∃ v0, table_ st !! i = Some (Some (k, v0))) →
  let st' := {| size_ := n; capacity_ := capacity_ st; BLOCK_SIZE := BLOCK_SIZE st;
                table_ := t'; from_ := from_ st |} in
  wf st' ∧ displaced st' ∧ near st'.
Proof.
  intros (Hpow & Hl1 & Hl2) Hdisp Hnear Hlen Hsub st'. split_and!.
  - split_and!; cbn; [done | congruence | done].
  - intros i k v Hi. destruct (Hsub i k v Hi) as [v0 Hv0].
    apply (Hdisp i k v0 Hv0).
  - intros i k v d Hi Hd. destruct (Hsub i k v Hi) as [v0 Hv0].
    by apply (Hnear i k v0 d Hv0).
Qed.

Lemma erase_absent st key :
  FindPosition st key = Ok (capacity_ st) → erase st key = Ok st.
Proof. intros Hf. unfold erase. rewrite Hf. cbn. by rewrite decide_True. Qed.

Lemma erase_present st key h v :
  inv st → table_ st !! h = Some (Some (key, v)) →
  ∃ st', erase st key = Ok st'
    ∧ table_ st' = <[h := None]> (table_ st)
    ∧ from_ st' = from_ st ∧ capacity_ st' = capacity_ st
    ∧ BLOCK_SIZE st' = BLOCK_SIZE st ∧ size_ st' + 1 = size_ st
    ∧ inv st' ∧ (key, v) :: entries st' ≡ₚ entries st.
Proof.
  intros (Htbl & Hnear & Hsz) Hh. pose proof Htbl as (Hwf & Hdisp & Hnd).
  pose proof (FindPosition_present st key h v Htbl Hh) as Hf.
  pose proof (lookup_lt_Some _ _ _ Hh) as Hlt.
  pose proof Hwf as (_ & Hlen & _).
  unfold erase, write. rewrite Hf. cbn.
  rewrite decide_False by lia. rewrite decide_True by done. cbn.
  eexists. split; [reflexivity|]. cbn [table_ from_ capacity_ BLOCK_SIZE size_].
  assert (Hperm : (key, v) :: omap id (<[h := None]> (table_ st)) ≡ₚ entries st).
  { apply (omap_insert_perm (table_ st) h None (Some (key, v)) Hh). }
  pose proof (Permutation_length Hperm) as Hplen. cbn in Hplen.
  do 4 (split; [done|]). split; [lia|]. split; [|done].
  destruct (table_update_inv st (<[h := None]> (table_ st)) (size_ st - 1)
              Hwf Hdisp Hnear) as (Hwf' & Hdisp' & Hnear').
  { by rewrite length_insert. }
  { intros i k0 v0 Hi. destruct (decide (i = h)) as [->|Hne].
    - by rewrite list_lookup_insert_eq in Hi.
    - rewrite list_lookup_insert_ne in Hi by done. eauto. }
  split; [split_and!|split]; try done.
  - unfold keys_of, entries in *. cbn [table_].
    rewrite <- (keys_perm _ _ Hperm) in Hnd. cbn in Hnd.
    by apply NoDup_cons in Hnd as [_ ?].
  - unfold entries at 1. cbn [table_ size_]. lia.
Qed.

Lemma clear_spec st :
  clear st = Ok {| size_ := 0; capacity_ := 1; BLOCK_SIZE := DEFAULT_BLOCK_SIZE;
                   table_ := [None]; from_ := resize 1 0 (from_ st) |}.
Proof.
  unfold clear, write. rewrite length_resize. rewrite decide_True by lia. cbn.
  do 2 f_equal. destruct (table_ st) as [|o t]; [done|]. cbn. by rewrite resize_0.
Qed.

Lemma clear_inv st st' : clear st = Ok st' → inv st' ∧ entries st' = [].
Proof.
  rewrite clear_spec. intros [= <-]. split; [|done].
  apply prepared_inv; cbn; [by exists 0 | done | done | by rewrite length_resize].
Qed.

Lemma construct_inv : inv (construct (KeyType := KeyType) (ValueType := ValueType)).
Proof. apply prepared_inv; cbn; [by exists 0 | done | done | done]. Qed.

(** Overwriting the value of the entry in slot [h]. *)
Lemma assign_slot_inv st h key v v' :
  inv st → table_ st !! h = Some (Some (key, v)) →
  let st' := {| size_ := size_ st; capacity_ := capacity_ st;
                BLOCK_SIZE := BLOCK_SIZE st;
                table_ := <[h := Some (key, v')]> (table_ st); from_ := from_ st |} in
  inv st' ∧ (key, v) :: entries st' ≡ₚ (key, v') :: entries st.
Proof.
  intros (Htbl & Hnear & Hsz) Hh st'. pose proof Htbl as (Hwf & Hdisp & Hnd).
  pose proof (lookup_lt_Some _ _ _ Hh) as Hlt.
  assert (Hperm : (key, v) :: entries st' ≡ₚ (key, v') :: entries st).
  { apply (omap_insert_perm (table_ st) h (Some (key, v')) (Some (key, v)) Hh). }
  pose proof (Permutation_length Hperm) as Hplen. cbn in Hplen.
  split; [|done].
  destruct (table_update_inv st (<[h := Some (key, v')]> (table_ st)) (size_ st)
              Hwf Hdisp Hnear) as (Hwf' & Hdisp' & Hnear').
  { by rewrite length_insert. }
  { intros i k0 v0 Hi. destruct (decide (i = h)) as [->|Hne].
    - rewrite list_lookup_insert_eq in Hi by done. simplify_eq. eauto.
    - rewrite list_lookup_insert_ne in Hi by done. eauto. }
  split; [split_and!|split]; try done.
  - apply keys_perm in Hperm. cbn in Hperm. apply Permutation_cons_inv in Hperm.
    unfold keys_of. by rewrite Hperm.
  - change (size_ st = length (entries st')). lia.
Qed.

(** ** Public operations against the finite map *)

Lemma construct_represents :
  represents (construct (KeyType := KeyType) (ValueType := ValueType)) ∅.
Proof. split; [apply construct_inv|]. by rewrite map_to_list_empty. Qed.

Lemma deref_occupied st h e : table_ st !! h = Some (Some e) → deref st h = Ok e.
Proof. intros Hh. unfold deref. apply read_Ok in Hh. by rewrite Hh. Qed.

Lemma find_model_Some st (m : gmap KeyType ValueType) k v :
  represents st m → m !! k = Some v →
  ∃ h, find st k = Ok h ∧ h < capacity_ st ∧ h ≠ end_ st
       ∧ table_ st !! h = Some (Some (k, v)).
Proof.
  intros Hrep Hm. pose proof Hrep as [((Hwf & ?) & _) _].
  destruct (FindPosition_model_Some st m k v Hrep Hm) as (h & Hf & Hlt & Hh).
  exists h. rewrite find_FindPosition, end_capacity by done.
  split_and!; [done | done | lia | done].
Qed.

Lemma find_model_None st (m : gmap KeyType ValueType) k :
  represents st m → m !! k = None → find st k = Ok (end_ st).
Proof.
  intros Hrep Hm. pose proof Hrep as [((Hwf & ?) & _) _].
  rewrite find_FindPosition, end_capacity by done.
  by eapply FindPosition_model_None.
Qed.

Lemma insert_represents fuel st (m : gmap KeyType ValueType) k v st' :
  represents st m → insert fuel st (k, v) = Ok st' →
  represents st' (model_step m (OpInsert k v))
  ∧ (m !! k = None → size_ st' = size_ st + 1)
  ∧ (is_Some (m !! k) → st' = st).
Proof.
  intros Hrep Hrun. pose proof Hrep as [Hinv Hperm].
  destruct (insert_ok_fuel fuel st (k, v) st' Hinv Hrun)
    as (Hinv' & [[Hin ->]|(Hfresh & Hperm' & _)]); cbn [fst] in *.
  - apply (represents_keys st m k Hrep) in Hin as [v0 Hv0].
    cbn [model_step]. rewrite Hv0. split_and!; [done | congruence | done].
  - assert (Hnone : m !! k = None).
    { destruct (m !! k) as [v0|] eqn:Hv0; [|done]. exfalso. apply Hfresh.
      apply (represents_keys st m k Hrep). by rewrite Hv0. }
    cbn [model_step]. rewrite Hnone. split_and!.
    + split; [done|]. by rewrite Hperm', Hperm, map_to_list_insert.
    + intros _. destruct Hinv as (_ & _ & Hsz), Hinv' as (_ & _ & Hsz').
      rewrite Hsz, Hsz', Hperm'. cbn. lia.
    + by intros [? ?].
Qed.

Lemma erase_represents st (m : gmap KeyType ValueType) k st' :
  represents st m → erase st k = Ok st' → represents st' (delete k m).
Proof.
  intros Hrep Hrun. pose proof Hrep as [Hinv Hperm].
  destruct (m !! k) as [v|] eqn:Hm.
  - destruct (FindPosition_model_Some st m k v Hrep Hm) as (h & _ & _ & Hh).
    destruct (erase_present st k h v Hinv Hh) as (st1 & Hrun1 & _ & _ & _ & _ & _ & Hinv1 & Hperm1).
    rewrite Hrun1 in Hrun. simplify_eq. split; [done|].
    rewrite <- Hperm1, <- (map_to_list_delete m k v Hm) in Hperm.
    by apply Permutation_cons_inv in Hperm.
  - rewrite (erase_absent st k) in Hrun by (by eapply FindPosition_model_None).
    simplify_eq. by rewrite delete_id.
Qed.

Lemma index_present fuel st (m : gmap KeyType ValueType) k v :
  represents st m → m !! k = Some v →
  ∃ h, index fuel st k = Ok (st, h, v) ∧ h < capacity_ st
       ∧ table_ st !! h = Some (Some (k, v)).
Proof.
  intros Hrep Hm.
  destruct (find_model_Some st m k v Hrep Hm) as (h & Hf & Hlt & Hne & Hh).
  exists h. split_and!; [|done|done].
  unfold index. rewrite Hf. cbn. rewrite decide_False by done. cbn.
  rewrite Hf. cbn. by rewrite (deref_occupied st h (k, v) Hh).
Qed.

Lemma index_absent fuel st (m : gmap KeyType ValueType) k :
  represents st m → m !! k = None →
  match insert fuel st (k, default_value) with
  | Ok st1 =>
      ∃ h, index fuel st k = Ok (st1, h, default_value) ∧ h < capacity_ st1
           ∧ table_ st1 !! h = Some (Some (k, default_value))
           ∧ represents st1 (<[k := default_value]> m)
           ∧ size_ st1 = size_ st + 1
  | Err err => index fuel st k = Err err
  end.
Proof.
  intros Hrep Hm. unfold index.
  rewrite (find_model_None st m k Hrep Hm). cbn. rewrite decide_True by done.
  destruct (insert fuel st (k, default_value)) as [st1|err] eqn:Hins; [|done].
  destruct (insert_represents fuel st m k default_value st1 Hrep Hins)
    as (Hrep1 & Hsz & _).
  cbn [model_step] in Hrep1. rewrite Hm in Hrep1.
  destruct (find_model_Some st1 _ k default_value Hrep1) as (h & Hf & Hlt & Hne & Hh).
  { apply lookup_insert_eq. }
  exists h. cbn. rewrite Hf. cbn. rewrite (deref_occupied st1 h _ Hh). cbn.
  split_and!; [done | done | done | done | by apply Hsz].
Qed.

Lemma assign_represents st (m : gmap KeyType ValueType) h k v0 v :
  represents st m → table_ st !! h = Some (Some (k, v0)) →
  represents {| size_ := size_ st; capacity_ := capacity_ st;
                BLOCK_SIZE := BLOCK_SIZE st;
                table_ := <[h := Some (k, v)]> (table_ st); from_ := from_ st |}
             (<[k := v]> m).
Proof.
  intros Hrep Hh. pose proof Hrep as [Hinv Hperm].
  destruct (assign_slot_inv st h k v0 v Hinv Hh) as [Hinv' Hperm'].
  split; [done|].
  assert (Hm : m !! k = Some v0).
  { apply (represents_lookup st m k v0 Hrep). eauto. }
  rewrite <- (insert_delete_eq m), map_to_list_insert by apply lookup_delete_eq.
  rewrite Hperm, <- (map_to_list_delete m k v0 Hm) in Hperm'.
  rewrite (Permutation_swap (k, v0) (k, v)) in Hperm'.
  by apply Permutation_cons_inv in Hperm'.
Qed.

Lemma index_assign_represents fuel st (m : gmap KeyType ValueType) k v st' :
  represents st m → index_assign fuel st k v = Ok st' →
  represents st' (<[k := v]> m).
Proof.
  intros Hrep Hrun. unfold index_assign in Hrun.
  assert (Hgen : ∀ st1 (m1 : gmap KeyType ValueType) h v1,
    represents st1 m1 → index fuel st k = Ok (st1, h, v1) →
    table_ st1 !! h = Some (Some (k, v1)) → represents st' (<[k := v]> m1)).
  { intros st1 m1 h v1 Hrep1 Hidx Hh. rewrite Hidx in Hrun. cbn in Hrun.
    rewrite (deref_occupied st1 h _ Hh) in Hrun. cbn in Hrun.
    unfold write in Hrun. rewrite decide_True in Hrun by (by eapply lookup_lt_Some).
    cbn in Hrun. simplify_eq. by eapply assign_represents. }
  destruct (m !! k) as [v0|] eqn:Hm.
  - destruct (index_present fuel st m k v0 Hrep Hm) as (h & Hidx & _ & Hh).
    by eapply Hgen.
  - pose proof (index_absent fuel st m k Hrep Hm) as Habs.
    destruct (insert fuel st (k, default_value)) as [st1|err].
    + destruct Habs as (h & Hidx & _ & Hh & Hrep1 & _).
      rewrite <- (insert_insert_eq m k v default_value). by eapply Hgen.
    + by rewrite Habs in Hrun.
Qed.

Lemma step_represents fuel st (m : gmap KeyType ValueType) o st' :
  represents st m → step fuel st o = Ok st' → represents st' (model_step m o).
Proof.
  intros Hrep Hrun. destruct o as [k v|k|k|k v|]; cbn [step] in Hrun.
  - by apply (insert_represents fuel st m k v st' Hrep).
  - by apply erase_represents with st.
  - cbn [model_step]. destruct (m !! k) as [v0|] eqn:Hm.
    + destruct (index_present fuel st m k v0 Hrep Hm) as (h & Hidx & _).
      rewrite Hidx in Hrun. cbn in Hrun. by simplify_eq.
    + pose proof (index_absent fuel st m k Hrep Hm) as Habs.
      destruct (insert fuel st (k, default_value)) as [st1|err].
      * destruct Habs as (h & Hidx & _ & _ & Hrep1 & _).
        rewrite Hidx in Hrun. cbn in Hrun. by simplify_eq.
      * by rewrite Habs in Hrun.
  - by apply index_assign_represents with fuel st.
  - destruct (clear_inv st st' Hrun) as [Hinv He]. split; [done|].
    cbn. by rewrite He, map_to_list_empty.
Qed.

Lemma run_represents fuel ops st (m : gmap KeyType ValueType) st' :
  represents st m → run fuel ops st = Ok st' →
  represents st' (foldl model_step m ops).
Proof.
  revert st m. induction ops as [|o ops IH]; intros st m Hrep Hrun; cbn in *.
  { by simplify_eq. }
  destruct (step fuel st o) as [st1|] eqn:Hstep; [|done]. cbn in Hrun.
  eapply IH; [|done]. by eapply step_represents.
Qed.

(** Every state a sequence of public operations reaches from the empty
    table represents the finite map the sequence denotes. *)
Lemma run_construct fuel ops st :
  run fuel ops construct = Ok st → represents st (model ops).
Proof. apply run_represents, construct_represents. Qed.

(** ** No access out of range *)

Lemma insert_probe_wf n st ptr d h2 st' ptr' :
  wf st → insert_probe n st ptr d h2 = Ok (st', ptr') → wf st'.
Proof.
  revert st ptr d h2. induction n as [|n IH]; intros st ptr d h2 Hwf Hrun;
    cbn [insert_probe] in Hrun; destruct ptr as [e|]; try by simplify_eq.
  { case_decide; by simplify_eq. }
  case_decide; [|by simplify_eq].
  destruct (read (table_ st) h2) as [slot|]; [|done].
  destruct (read (from_ st) h2) as [f|]; [|done].
  cbn in Hrun. case_decide.
  - eapply IH in Hrun; [done | by apply swap_slot_wf].
  - by eapply IH in Hrun.
Qed.

Lemma insert_all_safe ins values st :
  (∀ st e, wf st → safe (ins st e)) → wf st → safe (insert_all ins st values).
Proof.
  intros Hins. revert st. induction values as [|p values IH]; intros st Hwf; [done|].
  cbn [insert_all]. specialize (Hins st p Hwf).
  destruct (ins st p) as [st1|err]; [|done]. by apply IH.
Qed.

Lemma Rebuild_with_safe ins st :
  (∀ st e, wf st → safe (ins st e)) → safe (Rebuild_with ins st).
Proof.
  intros Hins. unfold Rebuild_with.
  destruct (Rebuild_prepare_spec st) as (st0 & -> & _ & Hc0 & _ & Ht0 & Hf0). cbn.
  apply insert_all_safe; [done|]. split_and!; [|by rewrite Ht0, length_replicate|done].
  destruct (new_capacity_spec (size_ st)) as (a & Ha & _). exists a. congruence.
Qed.

Lemma insert_loop_safe rb n st e :
  (∀ st, safe (rb st)) → wf st → safe (insert_loop rb n st e).
Proof.
  intros Hrb. revert st e. induction n as [|n IH]; intros st e Hwf; [done|].
  cbn [insert_loop].
  destruct (insert_probe _ st (Some e) 0 _) as [[st1 ptr1]|err] eqn:Hprobe.
  - apply insert_probe_wf in Hprobe; [|done]. cbn. destruct ptr1 as [p|]; [|done].
    specialize (Hrb st1). destruct (rb st1) as [st2|err]; [|done]. by apply IH.
  - apply insert_probe_err in Hprobe; [done | done | by apply GetBucket_lt].
Qed.

Lemma insert_safe fuel st e : wf st → safe (insert fuel st e).
Proof.
  revert st e. induction fuel as [|fuel IH]; intros st e Hwf; [done|].
  cbn [insert]. rewrite find_FindPosition by done.
  destruct (FindPosition_total st e.1 Hwf) as (h & -> & _). cbn.
  case_decide; [done|].
  apply (insert_loop_safe _ (S fuel)); [|done].
  intros st1. by apply Rebuild_with_safe.
Qed.

Lemma erase_safe st key : wf st → ∃ st', erase st key = Ok st' ∧ wf st'.
Proof.
  intros Hwf. unfold erase, write.
  destruct (FindPosition_total st key Hwf) as (h & -> & Hle). cbn.
  case_decide; [by eauto|].
  pose proof Hwf as (Hpow & Hl1 & Hl2).
  rewrite decide_True by lia. cbn. eexists. split; [done|].
  split_and!; cbn; [done | by rewrite length_insert | done].
Qed.

(** ** Iteration *)

Lemma skip_empty_spec n st it :
  it ≤ end_ st → end_ st - it ≤ n →
  it ≤ skip_empty n st it ≤ end_ st
  ∧ (∀ i, it ≤ i < skip_empty n st it → table_ st !! i = Some None)
  ∧ (skip_empty n st it < end_ st →
     ∃ e, table_ st !! skip_empty n st it = Some (Some e)).
Proof.
  revert it. induction n as [|n IH]; intros it Hle Hn; cbn [skip_empty].
  { split; [lia|]. split; [intros; lia | lia]. }
  case_decide as Hend; [|split; [lia|]; split; [intros; lia | lia]].
  destruct (lookup_lt_is_Some_2 (table_ st) it) as [slot Hslot];
    [unfold end_ in *; lia|].
  rewrite Hslot. destruct slot as [e|].
  - split; [lia|]. split; [intros; lia | by eauto].
  - destruct (IH (it + 1)) as (Hr & Hnone & Hocc); [lia | lia |].
    split; [lia|]. split; [|done].
    intros i Hi. destruct (decide (i = it)) as [->|]; [done|]. apply Hnone. lia.
Qed.

Lemma omap_drop_skip (t : list (option entry)) (a b : nat) :
  a ≤ b → (∀ i, a ≤ i < b → t !! i = Some None) →
  omap id (drop a t) = omap id (drop b t).
Proof.
  intros Hab. induction Hab as [|b Hab IH]; intros Hnone; [done|].
  rewrite IH by (intros; apply Hnone; lia).
  rewrite (drop_S t None b) by (apply Hnone; lia). done.
Qed.

Lemma traverse_from_spec n st it :
  it ≤ end_ st → end_ st - it ≤ n →
  (it < end_ st → ∃ e, table_ st !! it = Some (Some e)) →
  traverse_from n st it = Ok (omap id (drop it (table_ st))).
Proof.
  revert it. induction n as [|n IH]; intros it Hle Hn Hocc.
  { assert (it = end_ st) as -> by lia. cbn. rewrite decide_True by done.
    unfold end_. by rewrite drop_all. }
  cbn [traverse_from]. case_decide as Hend.
  { subst it. unfold end_. by rewrite drop_all. }
  destruct Hocc as [e He]; [lia|].
  rewrite (deref_occupied st it e He). cbn.
  unfold iter_incr.
  destruct (skip_empty_spec (length (table_ st)) st (it + 1)) as (Hr & Hnone & Hocc');
    [lia | unfold end_; lia |].
  rewrite IH; [|lia | lia | done]. cbn.
  rewrite (drop_S _ (Some e) it) by done. cbn.
  rewrite Nat.add_1_r in *.
  rewrite (omap_drop_skip _ (S it) (skip_empty (length (table_ st)) st (S it)));
    [done | lia | done].
Qed.

Lemma begin_spec st :
  wf st →
  ∃ b, begin_ st = Ok b ∧ b ≤ end_ st
    ∧ (∀ i, i < b → table_ st !! i = Some None)
    ∧ (b < end_ st → ∃ e, table_ st !! b = Some (Some e)).
Proof.
  intros Hwf. pose proof (wf_capacity_pos st Hwf) as Hpos.
  pose proof Hwf as (_ & Hlen & _). unfold begin_.
  destruct (read_lt (table_ st) 0) as (slot & -> & Hslot); [lia|]. cbn.
  destruct slot as [e|].
  - exists 0. split_and!; [done | lia | intros; lia | by eauto].
  - unfold iter_incr.
    destruct (skip_empty_spec (length (table_ st)) st (0 + 1)) as (Hr & Hnone & Hocc);
      [unfold end_; lia | unfold end_; lia |].
    eexists. split_and!; [done | lia | | done].
    intros i Hi. destruct (decide (i = 0)) as [->|]; [done|]. apply Hnone. lia.
Qed.

(** A traversal yields the occupied slots in the order of the table. *)
Lemma traverse_spec st : wf st → traverse st = Ok (entries st).
Proof.
  intros Hwf. unfold traverse.
  destruct (begin_spec st Hwf) as (b & -> & Hle & Hnone & Hocc). cbn.
  rewrite traverse_from_spec; [|done | unfold end_; lia | done].
  f_equal. unfold entries. symmetry.
  rewrite <- (omap_drop_skip (table_ st) 0 b); [done | lia |].
  intros i Hi. apply Hnone. lia.
Qed.

(** ** Reachable states *)

Lemma model_snoc (ops : list (op KeyType ValueType)) o :
  model (ops ++ [o]) = model_step (model ops) o.
Proof. unfold model. by rewrite foldl_app. Qed.

Lemma reachable_represents st ops : reachable st ops → represents st (model ops).
Proof.
  induction 1 as [|st ops fuel o st' _ IH Hstep].
  - apply construct_represents.
  - rewrite model_snoc. by eapply step_represents.
Qed.

Lemma run_reachable fuel ops0 ops st st' :
  reachable st ops0 → run fuel ops st = Ok st' → reachable st' (ops0 ++ ops).
Proof.
  revert ops0 st. induction ops as [|o ops IH]; intros ops0 st Hreach Hrun.
  { cbn in Hrun. simplify_eq. by rewrite app_nil_r. }
  cbn [run] in Hrun. destruct (step fuel st o) as [st1|] eqn:Hstep; [|done].
  cbn in Hrun. rewrite (cons_middle o ops0 ops), app_assoc.
  eapply IH; [|done]. by eapply reachable_step.
Qed.

Lemma run_construct_reachable fuel ops st :
  run fuel ops construct = Ok st → reachable st ops.
Proof. intros Hrun. by apply (run_reachable fuel [] ops construct st); [constructor|]. Qed.

Lemma reachable_inv st ops : reachable st ops → inv st.
Proof. by intros [? _]%reachable_represents. Qed.

Lemma reachable_wf st ops : reachable st ops → wf st.
Proof. by intros [[? _] _]%reachable_inv. Qed.

(** ** Further facts about insert *)

Lemma insert_present fuel st k v :
  tbl_inv st → k ∈ keys_of st → insert (S fuel) st (k, v) = Ok st.
Proof.
  intros Htbl [i [v0 Hi]]%keys_elem_of. pose proof Htbl as (Hwf & _).
  cbn [insert fst]. rewrite find_FindPosition, end_capacity by done.
  rewrite (FindPosition_present st k i v0 Htbl Hi). cbn.
  rewrite decide_True; [done|].
  destruct Hwf as (_ & <- & _). apply lookup_lt_Some in Hi. lia.
Qed.

(** A walk that has a free slot ahead of it, near enough for the carried
    displacement to stay below the probe limit, ends with empty hands. *)
Lemma insert_probe_reaches n st e d h2 j st' ptr' :
  wf st → h2 < capacity_ st →
  table_ st !! ((h2 + j) mod capacity_ st) = Some None → d + j < BLOCK_SIZE st →
  insert_probe n st (Some e) d h2 = Ok (st', ptr') → ptr' = None.
Proof.
  revert st e d h2 j. induction n as [|n IH]; intros st e d h2 j Hwf Hh2 Hfree Hdj Hrun;
    cbn [insert_probe] in Hrun.
  { rewrite decide_True in Hrun by lia. done. }
  rewrite decide_True in Hrun by lia.
  pose proof (wf_capacity_pos st Hwf) as Hpos.
  destruct (read (table_ st) h2) as [slot|] eqn:Hslot; [|done].
  destruct (read (from_ st) h2) as [f|] eqn:Hf; [|done].
  cbn in Hrun. apply read_Ok in Hslot, Hf.
  assert (Hnext : ∀ e0, slot = Some e0 →
    ∃ j', j = S j' ∧ (GetNext st h2 + j') mod capacity_ st = (h2 + j) mod capacity_ st
          ∧ (h2 + j) mod capacity_ st ≠ h2).
  { intros e0 ->. destruct j as [|j'].
    - rewrite Nat.add_0_r, Nat.mod_small in Hfree by done. congruence.
    - exists j'. split_and!; [done | |].
      + rewrite GetNext_mod by done. by apply mod_add_step.
      + intros Heq. rewrite Heq in Hfree. congruence. }
  case_decide as Hswap.
  - destruct slot as [e0|]; [|rewrite insert_probe_None in Hrun; by simplify_eq].
    destruct Hswap as [?|Hlt]; [done|].
    destruct (Hnext e0 eq_refl) as (j' & -> & Heq & Hne).
    eapply (IH _ _ _ _ j') in Hrun; [done | by apply swap_slot_wf | | | ].
    + cbn. by apply GetNext_lt.
    + cbn [table_ swap_slot capacity_]. rewrite Heq.
      by rewrite list_lookup_insert_ne.
    + cbn. lia.
  - destruct slot as [e0|]; [|exfalso; apply Hswap; by left].
    destruct (Hnext e0 eq_refl) as (j' & -> & Heq & Hne).
    eapply (IH _ _ _ _ j') in Hrun; [done | done | by apply GetNext_lt | | lia].
    by rewrite Heq.
Qed.

(** With a free slot in the probe window of a new key, [insert] succeeds
    with its first walk: no rebuild, and one unit of fuel is enough. *)
Lemma insert_free_slot st k v j :
  inv st → k ∉ keys_of st → j < BLOCK_SIZE st →
  table_ st !! ((GetBucket st k + j) mod capacity_ st) = Some None →
  ∃ st', insert 1 st (k, v) = Ok st' ∧ same_params st st'
         ∧ size_ st' = size_ st + 1.
Proof.
  intros (Htbl & Hnear & Hsz) Hfresh Hj Hfree. pose proof Htbl as (Hwf & _).
  pose proof (GetBucket_lt st k Hwf) as Hb.
  cbn [insert fst]. rewrite find_FindPosition, end_capacity by done.
  rewrite (FindPosition_not_in st k Htbl Hfresh). cbn.
  rewrite decide_False by (intros Hne; by apply Hne). cbn [fst].
  destruct (insert_probe_total st (k, v) (GetBucket st k) Hwf Hb) as (st1 & ptr1 & Hprobe).
  rewrite Hprobe. cbn.
  assert (Hdj : 0 + j < BLOCK_SIZE st) by lia.
  pose proof (insert_probe_reaches _ _ _ _ _ j _ _ Hwf Hb Hfree Hdj Hprobe) as ->.
  destruct (insert_probe_spec _ st (k, v) 0 (GetBucket st k) st1 None Htbl Hfresh
              ltac:(by rewrite Nat.add_0_r, Nat.mod_small) Hprobe)
    as (_ & Hc1 & Hb1 & Hs1 & _).
  eexists. split; [done|]. split; [done|]. cbn. lia.
Qed.

(** ** Lemmas behind the claims *)

Lemma probe_slot_mod st key j :
  wf st → probe_slot st key j = (GetBucket st key + j) mod capacity_ st.
Proof.
  intros Hwf. pose proof (wf_capacity_pos st Hwf) as Hpos.
  pose proof (GetBucket_lt st key Hwf) as Hb. unfold probe_slot.
  induction j as [|j IH].
  - cbn. by rewrite Nat.add_0_r, Nat.mod_small.
  - rewrite Nat.iter_succ, IH, GetNext_mod by done.
    rewrite Nat.Div0.add_mod_idemp_l. f_equal. lia.
Qed.

Lemma displacement_exact (c b d i : nat) :
  b < c → d < c → (b + d) mod c = i → d = (i + c - b) mod c.
Proof.
  intros Hb Hd <-. destruct (decide (b + d < c)) as [Hlt|Hge].
  - rewrite (Nat.mod_small (b + d)) by done.
    replace (b + d + c - b) with (d + 1 * c) by lia.
    rewrite Nat.Div0.mod_add. by rewrite Nat.mod_small.
  - replace (b + d) with (b + d - c + 1 * c) by lia.
    rewrite Nat.Div0.mod_add, (Nat.mod_small (b + d - c)) by lia.
    replace (b + d - c + c - b) with d by lia. by rewrite Nat.mod_small.
Qed.

Lemma at_present st k i v :
  tbl_inv st → table_ st !! i = Some (Some (k, v)) → at_ st k = Ok v.
Proof.
  intros Htbl Hi. pose proof Htbl as (Hwf & _). unfold at_.
  rewrite find_FindPosition, end_capacity by done.
  rewrite (FindPosition_present st k i v Htbl Hi). cbn.
  destruct Hwf as (_ & <- & _). pose proof (lookup_lt_Some _ _ _ Hi).
  rewrite decide_False by lia. by rewrite (deref_occupied st i (k, v) Hi).
Qed.

Lemma at_absent st k : tbl_inv st → k ∉ keys_of st → at_ st k = Err KeyNotFound.
Proof.
  intros Htbl Hk. pose proof Htbl as (Hwf & _). unfold at_.
  rewrite find_FindPosition, end_capacity by done.
  rewrite (FindPosition_not_in st k Htbl Hk). cbn. by rewrite decide_True.
Qed.

Lemma at_cases st k :
  tbl_inv st →
  ((k ∉ keys_of st) ∧ at_ st k = Err KeyNotFound)
  ∨ (∃ i v, table_ st !! i = Some (Some (k, v)) ∧ at_ st k = Ok v).
Proof.
  intros Htbl. destruct (decide (k ∈ keys_of st)) as [Hin|Hnotin].
  - right. apply keys_elem_of in Hin as [i [v Hi]]. exists i, v.
    split; [done|]. by eapply at_present.
  - left. split; [done|]. by apply at_absent.
Qed.

Lemma index_err fuel st (m : gmap KeyType ValueType) k err :
  represents st m → index fuel st k = Err err → err = OutOfFuel.
Proof.
  intros Hrep Hidx. destruct (m !! k) as [v|] eqn:Hm.
  - destruct (index_present fuel st m k v Hrep Hm) as (h & Hok & _). congruence.
  - pose proof (index_absent fuel st m k Hrep Hm) as Habs.
    pose proof (insert_safe fuel st (k, default_value)) as Hsafe.
    destruct (insert fuel st (k, default_value)) as [st1|err1].
    + destruct Habs as (h & Hok & _). congruence.
    + rewrite Habs in Hidx. simplify_eq. apply Hsafe.
      by destruct Hrep as [[[? _] _] _].
Qed.

Lemma step_err fuel st ops o err :
  reachable st ops → step fuel st o = Err err → err = OutOfFuel.
Proof.
  intros Hreach Herr. pose proof (reachable_represents st ops Hreach) as Hrep.
  pose proof (reachable_wf st ops Hreach) as Hwf.
  destruct o as [k v|k|k|k v|]; cbn [step] in Herr.
  - pose proof (insert_safe fuel st (k, v) Hwf) as Hsafe. by rewrite Herr in Hsafe.
  - destruct (erase_safe st k Hwf) as (st' & Hok & _). congruence.
  - destruct (index fuel st k) as [r|err1] eqn:Hidx; [done|].
    cbn in Herr. simplify_eq. by eapply index_err.
  - unfold index_assign in Herr.
    destruct (index fuel st k) as [[[st1 it] v1]|err1] eqn:Hidx.
    + exfalso. cbn in Herr.
      assert (Hit : table_ st1 !! it = Some (Some (k, v1))).
      { destruct (model ops !! k) as [v0|] eqn:Hm.
        - destruct (index_present fuel st _ k v0 Hrep Hm) as (h & Hok & _ & Hh).
          rewrite Hok in Hidx. by simplify_eq.
        - pose proof (index_absent fuel st _ k Hrep Hm) as Habs.
          destruct (insert fuel st (k, default_value)) as [st2|err2].
          + destruct Habs as (h & Hok & _ & Hh & _).
            rewrite Hok in Hidx. by simplify_eq.
          + congruence. }
      rewrite (deref_occupied st1 it _ Hit) in Herr. cbn in Herr.
      unfold write in Herr.
      rewrite decide_True in Herr by (by eapply lookup_lt_Some). done.
    + cbn in Herr. simplify_eq. by eapply index_err.
  - by rewrite clear_spec in Herr.
Qed.

Lemma entries_nil_iff (t : list (option entry)) :
  omap id t = [] ↔ ∀ i, i < length t → t !! i = Some None.
Proof.
  split.
  - intros Hnil i Hi. destruct (lookup_lt_is_Some_2 t i Hi) as [[e|] Hs]; [|done].
    apply entries_lookup in Hs. rewrite Hnil in Hs. by apply elem_of_nil in Hs.
  - intros Hall. destruct (omap id t) as [|e l] eqn:Heq; [done|].
    assert (Hin : e ∈ omap id t) by (rewrite Heq; left).
    apply entries_elem_of in Hin as [i Hi].
    rewrite (Hall i) in Hi by (by eapply lookup_lt_Some). done.
Qed.

Lemma begin_end_iff_empty st :
  inv st → begin_ st = Ok (end_ st) ↔ empty st = true.
Proof.
  intros ((Hwf & _) & _ & Hsz).
  destruct (begin_spec st Hwf) as (b & Hb & Hle & Hnone & Hocc).
  unfold empty, size. rewrite bool_decide_eq_true, Hsz, length_zero_iff_nil.
  unfold entries. rewrite entries_nil_iff, Hb. split.
  - intros [= ->]. done.
  - intros Hall. f_equal. destruct (decide (b = end_ st)) as [|Hne]; [done|].
    destruct Hocc as [e He]; [lia|]. rewrite Hall in He; [done|].
    by eapply lookup_lt_Some.
Qed.


(** * The claims *)

(** C1 (round trip).  In every state reached by a sequence of public
    operations, a key that the sequence has associated with a value (it was
    inserted and not erased since; the value is the one of the first
    insertion unless an assignment through [operator[]] replaced it) is
    found: [find] returns a position other than [end()] that holds the key
    with that value, [at] returns the value, and [operator[]] returns a
    reference to that slot and leaves the table as it is. *)
Theorem C1_round_trip st ops k v :
  reachable st ops → model ops !! k = Some v →
  ∃ it, find st k = Ok it ∧ it ≠ end_ st ∧ deref st it = Ok (k, v)
        ∧ at_ st k = Ok v
        ∧ ∀ fuel, index fuel st k = Ok (st, it, v).
Proof.
  intros Hreach Hm. pose proof (reachable_represents st ops Hreach) as Hrep.
  destruct (find_model_Some st _ k v Hrep Hm) as (h & Hf & Hlt & Hne & Hh).
  exists h. split_and!; [done | done | by apply deref_occupied | |].
  - eapply at_present; [|done]. by destruct Hrep as [[? _] _].
  - intros fuel. destruct (index_present fuel st _ k v Hrep Hm) as (h' & Hidx & _ & Hh').
    destruct Hrep as [[(_ & _ & Hnd) _] _].
    by destruct (NoDup_keys_lookup _ _ _ _ _ _ Hnd Hh Hh') as [-> _].
Qed.

(** C2 (first insert wins).  In every reachable state no two slots hold the
    same key, the keys in the table are those the operations have
    associated with a value, and [insert] of a key that is in the table
    returns the state unchanged: no value is overwritten and the size stays
    as it is. *)
Theorem C2_insert_present_is_noop st ops k v :
  reachable st ops →
  NoDup (keys_of st)
  ∧ (k ∈ keys_of st ↔ is_Some (model ops !! k))
  ∧ (k ∈ keys_of st → ∀ fuel, insert (S fuel) st (k, v) = Ok st).
Proof.
  intros Hreach. pose proof (reachable_represents st ops Hreach) as Hrep.
  pose proof Hrep as [[Htbl _] _]. split_and!.
  - by destruct Htbl as (_ & _ & ?).
  - by apply represents_keys.
  - intros Hin fuel. by apply insert_present.
Qed.

(** C3 (probe window).  The bucket [FindPosition] starts from is
    [hash(key) mod capacity].  [FindPosition] examines the slots
    [bucket(key)], [GetNext(bucket(key))], ... , [BLOCK_SIZE] of them, which
    are the slots [(bucket(key) + j) mod capacity] for [j < BLOCK_SIZE].  It
    reports absence ([capacity_], and [find] returns [end()]) exactly when
    none of these slots holds the key, whatever slots among them are empty;
    otherwise it returns the first slot of the window that holds the key. *)
Theorem C3_find_scans_probe_window st key :
  wf st →
  GetBucket st key = hasher_ key mod capacity_ st
  ∧ (∀ j, probe_slot st key j
          = (hasher_ key mod capacity_ st + j) mod capacity_ st)
  ∧ (∀ j, probe_slot st key j = (GetBucket st key + j) mod capacity_ st)
  ∧ ((FindPosition st key = Ok (capacity_ st) ∧ find st key = Ok (end_ st)
      ∧ ∀ j, j < BLOCK_SIZE st → ¬ holds st (probe_slot st key j) key)
     ∨ (∃ j, j < BLOCK_SIZE st
          ∧ FindPosition st key = Ok (probe_slot st key j)
          ∧ find st key = Ok (probe_slot st key j)
          ∧ probe_slot st key j ≠ end_ st
          ∧ holds st (probe_slot st key j) key
          ∧ ∀ j', j' < j → ¬ holds st (probe_slot st key j') key)).
Proof.
  intros Hwf. pose proof (wf_capacity_pos st Hwf) as Hpos.
  split; [by apply GetBucket_mod|].
  split; [intros j; rewrite <- GetBucket_mod by done; by apply probe_slot_mod|].
  split; [intros j; by apply probe_slot_mod|].
  rewrite find_FindPosition, end_capacity by done.
  destruct (FindPosition_spec st key Hwf) as [[Heq Hall] | (j & Hj & Heq & Hh & Hfirst)].
  - left. split_and!; [done | done |]. intros j Hj.
    rewrite probe_slot_mod by done. by apply Hall.
  - right. exists j. rewrite probe_slot_mod by done.
    split_and!; [done | done | done | | done |].
    + pose proof (Nat.mod_upper_bound (GetBucket st key + j) (capacity_ st)). lia.
    + intros j' Hj'. rewrite probe_slot_mod by done. by apply Hfirst.
Qed.

(** C6 (displacement counters).  In every reachable state the bucket of a
    key [k] is [b = hash(k) mod capacity], and the displacement counter of
    an occupied slot [i] holding [k] is the number of forward steps from
    [b] to [i], that is [(i - b) mod capacity], and it is below
    [BLOCK_SIZE].  Reachable states are closed under [insert], with its
    swaps and rebuilds, and under [erase]. *)
Theorem C6_displacement_counter st ops i k v :
  reachable st ops → table_ st !! i = Some (Some (k, v)) →
  GetBucket st k = hasher_ k mod capacity_ st
  ∧ ∃ d, from_ st !! i = Some d
       ∧ d = (i + capacity_ st - hasher_ k mod capacity_ st) mod capacity_ st
       ∧ (hasher_ k mod capacity_ st + d) mod capacity_ st = i
       ∧ d = (i + capacity_ st - GetBucket st k) mod capacity_ st
       ∧ (GetBucket st k + d) mod capacity_ st = i
       ∧ d < BLOCK_SIZE st.
Proof.
  intros Hreach Hi.
  destruct (reachable_inv st ops Hreach) as ((Hwf & Hdisp & _) & Hnear & _).
  destruct (Hdisp i k v Hi) as (d & Hd & Hlt & Hpos).
  assert (Hexact : d = (i + capacity_ st - GetBucket st k) mod capacity_ st).
  { apply displacement_exact; [by apply GetBucket_lt | by eapply Hnear | done]. }
  pose proof (GetBucket_mod st k Hwf) as Hb.
  split; [exact Hb|]. exists d.
  split; [exact Hd|]. rewrite <- Hb. split; [exact Hexact|].
  split; [exact Hpos|]. split; [exact Hexact|]. split; [exact Hpos | exact Hlt].
Qed.


(** C9 (iteration).  In a reachable state a traversal from [begin()] to
    [end()] yields the entries of the occupied slots in the order of the
    table, the empty slots left out: there are [size()] of them, no key
    occurs twice, and they are the associations the operations have built
    up.  [begin()] is [end()] exactly when the table is empty. *)
Theorem C9_traversal st ops :
  reachable st ops →
  traverse st = Ok (omap id (table_ st))
  ∧ length (omap id (table_ st)) = size st
  ∧ NoDup (omap id (table_ st)).*1
  ∧ omap id (table_ st) ≡ₚ map_to_list (model ops)
  ∧ (begin_ st = Ok (end_ st) ↔ empty st = true).
Proof.
  intros Hreach. destruct (reachable_represents st ops Hreach) as [Hinv Hperm].
  pose proof Hinv as ((Hwf & _ & Hnd) & _ & Hsz).
  split_and!; [by apply traverse_spec | done | done | done |].
  by apply begin_end_iff_empty.
Qed.

(** C10 (bounds).  When the capacity is a power of two and both vectors have
    that length, the slot indices [GetBucket] and [GetNext] compute are
    below the length of both vectors, whatever the probe limit is; so
    [FindPosition] and [erase] return a result, [insert] returns a result or
    runs out of fuel, none of them reads or writes out of range, and the
    states they return have vectors of the right shape again. *)
Theorem C10_accesses_in_bounds st :
  wf st →
  (∀ key, GetBucket st key < length (table_ st)
          ∧ GetBucket st key < length (from_ st))
  ∧ (∀ h, GetNext st h < length (table_ st) ∧ GetNext st h < length (from_ st))
  ∧ (∀ key, ∃ h, FindPosition st key = Ok h ∧ h ≤ capacity_ st)
  ∧ (∀ key, ∃ st', erase st key = Ok st' ∧ wf st')
  ∧ (∀ fuel e, insert fuel st e ≠ Err OutOfRange
               ∧ ∀ st', insert fuel st e = Ok st' → wf st').
Proof.
  intros Hwf. pose proof Hwf as (_ & Hl1 & Hl2). split_and!.
  - intros key. pose proof (GetBucket_lt st key Hwf). lia.
  - intros h. pose proof (GetNext_lt st h Hwf). lia.
  - intros key. by apply FindPosition_total.
  - intros key. by apply erase_safe.
  - intros fuel e. pose proof (insert_safe fuel st e Hwf) as Hsafe. split.
    + intros Herr. rewrite Herr in Hsafe. done.
    + intros st' Hok. by rewrite Hok in Hsafe.
Qed.

(** ** A table on which insert cannot succeed *)

Lemma length_omap_le (t : list (option entry)) : length (omap id t) ≤ length t.
Proof. induction t as [|[e|] t IH]; cbn; lia. Qed.

Lemma length_omap_below (t : list (option entry)) (n : nat) :
  (∀ i e, t !! i = Some (Some e) → i < n) → length (omap id t) ≤ n.
Proof.
  intros Hocc. rewrite <- (take_drop n t), omap_app, length_app.
  assert (Hdrop : omap id (drop n t) = []).
  { apply entries_nil_iff. intros i Hi.
    destruct (lookup_lt_is_Some_2 _ _ Hi) as [[e|] Hs]; [|done].
    rewrite lookup_drop in Hs. apply Hocc in Hs. lia. }
  rewrite Hdrop. pose proof (length_omap_le (take n t)).
  pose proof (length_take_le t n). cbn. rewrite length_take in *. lia.
Qed.

Lemma filter_ext_elem_of {A : Type} (P Q : A → Prop)
    `{∀ x, Decision (P x)} `{∀ x, Decision (Q x)} (l : list A) :
  (∀ x, x ∈ l → P x ↔ Q x) → filter P l = filter Q l.
Proof.
  induction l as [|x l IH]; intros Hext; [done|].
  rewrite !filter_cons.
  pose proof (Hext x ltac:(left)) as Hx.
  rewrite IH by (intros y Hy; apply Hext; by right).
  destruct (decide (P x)), (decide (Q x)); tauto.
Qed.

Lemma filter_none {A : Type} (P : A → Prop) `{∀ x, Decision (P x)} (l : list A) :
  (∀ x, x ∈ l → ¬ P x) → filter P l = [].
Proof.
  induction l as [|x l IH]; intros Hnone; [done|].
  rewrite filter_cons_False by (apply Hnone; left).
  apply IH. intros y Hy. apply Hnone. by right.
Qed.

Lemma cluster_submseteq st values values' b :
  values ⊆+ values' → cluster st values b ≤ cluster st values' b.
Proof.
  intros Hsub. unfold cluster. apply submseteq_length.
  apply submseteq_Permutation in Hsub as [rest Hperm].
  rewrite Hperm, filter_app. by apply submseteq_inserts_r.
Qed.

Lemma cluster_keys st values b :
  cluster st values b = length (filter (λ k, GetBucket st k = b) values.*1).
Proof.
  unfold cluster. induction values as [|e values IH]; [done|].
  cbn [fmap list_fmap]. rewrite !filter_cons. cbn.
  case_decide; cbn; by rewrite IH.
Qed.

(** When every key, old and new, hashes below 4, at most 32 of them share a
    hash value, the probe limit is the default and the table holds 67
    entries, [insert] of a new key never returns: an entry with bucket
    [b ≤ 3] and displacement [d < 64] sits at a slot below 67, so no table
    holds 68 of them, and no rebuild raises the probe limit. *)
Lemma insert_stuck fuel st e :
  inv st → e.1 ∉ keys_of st → BLOCK_SIZE st = DEFAULT_BLOCK_SIZE →
  67 ≤ length (entries st) →
  (∀ k, k ∈ e.1 :: keys_of st → hasher_ k < 4) →
  (∀ c, c < 4 → length (filter (λ k, hasher_ k = c) (e.1 :: keys_of st)) ≤ 32) →
  insert fuel st e = Err OutOfFuel.
Proof.
  intros Hinv Hfresh Hblock Hlen Hhash Hcount.
  pose proof Hinv as ((Hwf & _) & _).
  pose proof (insert_safe fuel st e Hwf) as Hsafe.
  destruct (insert fuel st e) as [st'|err] eqn:Hins; [exfalso|by rewrite Hsafe].
  destruct (insert_ok_fuel fuel st e st' Hinv Hins)
    as (Hinv' & [[Hin _]|(_ & Hperm & Hpar)]); [done|].
  pose proof Hinv' as ((Hwf' & Hdisp' & _) & _).
  pose proof Hwf' as (_ & Hl1' & _).
  pose proof (Permutation_length Hperm) as Hlen'. cbn in Hlen'.
  assert (Hcap : 68 ≤ capacity_ st').
  { rewrite <- Hl1'. pose proof (length_omap_le (table_ st')).
    unfold entries in *. lia. }
  assert (Hkeys : ∀ k, k ∈ keys_of st' → hasher_ k < 4).
  { intros k Hk. apply Hhash. unfold keys_of in Hk.
    by rewrite (keys_perm _ _ Hperm) in Hk. }
  assert (Hbucket : ∀ k, k ∈ keys_of st' → GetBucket st' k = hasher_ k).
  { intros k Hk. rewrite GetBucket_mod by done. apply Nat.mod_small.
    specialize (Hkeys k Hk). lia. }
  assert (Hcluster : ∀ b, cluster st' (entries st') b ≤ 32).
  { intros b. rewrite cluster_keys. fold (keys_of st').
    destruct (decide (b < 4)) as [Hb|Hb].
    - etrans; [|apply (Hcount b Hb)].
      rewrite <- (keys_perm _ _ Hperm). fold (keys_of st').
      apply Nat.eq_le_incl. f_equal. apply filter_ext_elem_of.
      intros k Hk. by rewrite (Hbucket k Hk).
    - rewrite filter_none; [cbn; lia|]. intros k Hk Heq.
      rewrite (Hbucket k Hk) in Heq. specialize (Hkeys k Hk). lia. }
  assert (Hblock' : BLOCK_SIZE st' = DEFAULT_BLOCK_SIZE).
  { destruct Hpar as [[_ Hb]|(values & Hsub & _ & Hb)]; [congruence|].
    rewrite Hb. apply Nat.max_l. unfold DEFAULT_BLOCK_SIZE.
    assert (max_element (cluster st' values <$> seq 0 (capacity_ st')) ≤ 32); [|lia].
    apply max_element_le. intros x (b & -> & _)%list_elem_of_fmap.
    etrans; [by apply cluster_submseteq|]. apply Hcluster. }
  assert (Hbelow : length (entries st') ≤ 67).
  { apply length_omap_below. intros i [k v] Hi.
    destruct (Hdisp' i k v Hi) as (d & _ & Hd & Hpos).
    rewrite Hblock' in Hd. unfold DEFAULT_BLOCK_SIZE in Hd.
    pose proof (keys_lookup st' i k v Hi) as Hk.
    rewrite (Hbucket k Hk) in Hpos. specialize (Hkeys k Hk).
    rewrite Nat.mod_small in Hpos by lia. lia. }
  lia.
Qed.

(** ** A rebuild without a nested rebuild *)

Lemma insert_probe_params n st ptr d h2 st' ptr' :
  insert_probe n st ptr d h2 = Ok (st', ptr') →
  capacity_ st' = capacity_ st ∧ BLOCK_SIZE st' = BLOCK_SIZE st.
Proof.
  revert st ptr d h2. induction n as [|n IH]; intros st ptr d h2 Hrun;
    cbn [insert_probe] in Hrun; destruct ptr as [e|]; try by simplify_eq.
  { case_decide; by simplify_eq. }
  case_decide; [|by simplify_eq].
  destruct (read (table_ st) h2) as [slot|]; [|done].
  destruct (read (from_ st) h2) as [f|]; [|done].
  cbn in Hrun. case_decide; by apply IH in Hrun.
Qed.

(** A call of [insert] that returns with one unit of fuel has made no
    rebuild, and returns the same state with any more fuel. *)
Lemma insert_one_walk st e st' :
  insert 1 st e = Ok st' →
  same_params st st' ∧ ∀ fuel, insert (S fuel) st e = Ok st'.
Proof.
  intros Hrun. cbn [insert] in Hrun.
  destruct (find st e.1) as [it|] eqn:Hfind; [|done]. cbn in Hrun.
  case_decide as Hit.
  { simplify_eq. split; [done|]. intros fuel. cbn [insert]. rewrite Hfind. cbn.
    by rewrite decide_True. }
  cbn [insert_loop] in Hrun.
  destruct (insert_probe _ st (Some e) 0 _) as [[st1 ptr1]|] eqn:Hprobe; [|done].
  cbn [mbind result_bind] in Hrun. destruct ptr1 as [p|].
  { destruct (Rebuild_with _ st1); cbn in Hrun; done. }
  simplify_eq. split.
  - by apply insert_probe_params in Hprobe.
  - intros fuel. cbn [insert]. rewrite Hfind. cbn [mbind result_bind].
    rewrite decide_False by (intros Hne; by apply Hne).
    cbn [insert_loop]. by rewrite Hprobe.
Qed.

Lemma insert_all_one_walk values st st' :
  insert_all (insert 1) st values = Ok st' →
  same_params st st' ∧ ∀ fuel, insert_all (insert (S fuel)) st values = Ok st'.
Proof.
  revert st. induction values as [|p values IH]; intros st Hrun; cbn [insert_all] in *.
  { by simplify_eq. }
  destruct (insert 1 st p) as [st1|] eqn:Hins; [|done]. cbn in Hrun.
  destruct (insert_one_walk st p st1 Hins) as [[Hc Hb] Hfuel].
  destruct (IH st1 Hrun) as [[Hc' Hb'] Hfuel'].
  split; [split; congruence|]. intros fuel.
  rewrite Hfuel. cbn [mbind result_bind]. apply Hfuel'.
Qed.

(** When no walk of the reinsertion phase fails, [Rebuild] returns with the
    capacity and the probe limit it computed: the capacity is the smallest
    power of two that is at least five times the number of entries, the
    probe limit is the larger of 64 and twice the largest cluster, and the
    size, which is the number of entries again, is at most a fifth of the
    capacity. *)
Lemma Rebuild_without_nested st st0 st' :
  NoDup (keys_of st) → size_ st = length (entries st) →
  Rebuild_prepare st = Ok (st0, entries st) →
  insert_all (insert 1) st0 (entries st) = Ok st' →
  (∀ fuel, Rebuild (S fuel) st = Ok st')
  ∧ (∃ a, capacity_ st' = 2 ^ a ∧ length (entries st) * STANDARD_DIFF ≤ 2 ^ a
          ∧ ∀ a', length (entries st) * STANDARD_DIFF ≤ 2 ^ a' → a ≤ a')
  ∧ BLOCK_SIZE st'
    = Nat.max DEFAULT_BLOCK_SIZE
        (2 * max_element (cluster st' (entries st) <$> seq 0 (capacity_ st')))
  ∧ size st' = length (entries st)
  ∧ size st' * STANDARD_DIFF ≤ capacity_ st'.
Proof.
  intros Hnd Hsz Hprep Hall.
  destruct (insert_all_one_walk _ _ _ Hall) as [[Hc Hb] Hfuel].
  assert (Hreb : ∀ fuel, Rebuild (S fuel) st = Ok st').
  { intros fuel. unfold Rebuild, Rebuild_with. rewrite Hprep. cbn. apply Hfuel. }
  destruct (Rebuild_ok 1 st st' Hnd Hsz (Hreb 0)) as ((_ & _ & Hsz') & Hperm & _).
  destruct (Rebuild_prepare_spec st) as (st0' & Hprep' & _ & Hc0 & Hb0 & _).
  rewrite Hprep in Hprep'. simplify_eq.
  destruct (new_capacity_spec (size_ st)) as (a & Ha & Hle & Hmin).
  rewrite Hsz in Hle, Hmin.
  assert (Hlen : size st' = length (entries st)).
  { unfold size. by rewrite Hsz', Hperm. }
  split_and!; [done | | | done |].
  - exists a. split_and!; [congruence | done | done].
  - rewrite Hb, Hb0, Hc. do 3 f_equal.
    apply list_fmap_ext. intros _ b _. symmetry. by apply cluster_capacity.
  - rewrite Hlen, Hc, Hc0, Ha. done.
Qed.


(** * Further properties of the code *)

(** ** The associations of a table *)

Lemma inv_represents st : inv st → represents st (contents st).
Proof.
  intros Hinv. split; [done|]. unfold contents.
  rewrite map_to_list_to_map; [done|]. by destruct Hinv as ((_ & _ & ?) & _).
Qed.

Lemma represents_contents st (m : gmap KeyType ValueType) :
  represents st m → contents st = m.
Proof.
  intros [((_ & _ & Hnd) & _) Hperm]. unfold contents.
  rewrite (list_to_map_proper _ _ Hnd Hperm). apply list_to_map_to_list.
Qed.

Lemma at_represents st (m : gmap KeyType ValueType) k :
  represents st m →
  at_ st k = match m !! k with Some v => Ok v | None => Err KeyNotFound end.
Proof.
  intros Hrep. pose proof Hrep as [(Htbl & _) _].
  destruct (m !! k) as [v|] eqn:Hm.
  - apply (represents_lookup st m k v Hrep) in Hm as [i Hi]. by eapply at_present.
  - apply at_absent; [done|]. rewrite (represents_keys st m k Hrep), Hm.
    by intros [? ?].
Qed.

Lemma size_represents st (m : gmap KeyType ValueType) :
  represents st m → size st = base.size m.
Proof.
  intros [(_ & _ & Hsz) Hperm]. unfold size.
  by rewrite Hsz, Hperm, length_map_to_list.
Qed.

Lemma at_contents st k :
  inv st →
  at_ st k = match contents st !! k with Some v => Ok v | None => Err KeyNotFound end.
Proof. intros Hinv. by apply at_represents, inv_represents. Qed.

Lemma insert_if_absent_union (m L : gmap KeyType ValueType) k v :
  (if m !! k is Some _ then m else <[k := v]> m) ∪ L = m ∪ <[k := v]> L.
Proof.
  destruct (m !! k) as [x|] eqn:Hm; apply map_eq; intros j;
    rewrite !lookup_union; destruct (decide (j = k)) as [->|Hne].
  - rewrite Hm, lookup_insert_eq. by destruct (L !! k).
  - by rewrite lookup_insert_ne.
  - rewrite !lookup_insert_eq, Hm. by destruct (L !! k).
  - by rewrite !lookup_insert_ne.
Qed.

Lemma insert_all_represents fuel values st (m : gmap KeyType ValueType) st' :
  represents st m → insert_all (insert fuel) st values = Ok st' →
  represents st' (m ∪ list_to_map values).
Proof.
  revert st m. induction values as [|[k v] values IH]; intros st m Hrep Hrun.
  { cbn in Hrun. simplify_eq. by rewrite list_to_map_nil, (right_id_L ∅ (∪)). }
  cbn [insert_all] in Hrun.
  destruct (insert fuel st (k, v)) as [st1|] eqn:Hins; [|done].
  cbn [mbind result_bind] in Hrun.
  destruct (insert_represents fuel st m k v st1 Hrep Hins) as (Hrep1 & _).
  cbn [model_step] in Hrep1.
  rewrite list_to_map_cons, <- insert_if_absent_union. by eapply IH.
Qed.

Lemma size_list_to_map (l : list entry) :
  base.size (list_to_map l : gmap KeyType ValueType) = length (remove_dups l.*1).
Proof.
  induction l as [|[k v] l IH]; [done|].
  rewrite list_to_map_cons, map_size_insert. cbn [fmap list_fmap fst remove_dups].
  destruct (decide_rel elem_of k l.*1) as [Hin|Hnotin].
  - destruct (list_to_map l !! k) as [x|] eqn:Hk; [done|].
    by apply not_elem_of_list_to_map_2 in Hk.
  - rewrite (not_elem_of_list_to_map_1 l k Hnotin). cbn. by rewrite IH.
Qed.

(** ** clear, the constructors and the assignment operator *)

Lemma clear_total st :
  ∃ st', clear st = Ok st'
    ∧ size st' = 0 ∧ capacity_ st' = 1 ∧ BLOCK_SIZE st' = DEFAULT_BLOCK_SIZE
    ∧ table_ st' = [None] ∧ length (from_ st') = 1
    ∧ inv st' ∧ entries st' = [].
Proof.
  eexists. split; [apply clear_spec|].
  destruct (clear_inv st _ (clear_spec st)) as [Hinv He].
  split_and!; try done. cbn [from_]. by rewrite length_resize.
Qed.

(** X1 (clear).  From any state whatever, [clear] returns the table of the
    default constructor, up to the stale displacement counter of slot 0:
    size 0, capacity 1, default probe limit, one empty slot.  No key is
    found in it any more and a traversal is empty. *)
Theorem X1_clear_empties st :
  ∃ st', clear st = Ok st'
    ∧ size st' = 0 ∧ capacity_ st' = 1 ∧ BLOCK_SIZE st' = DEFAULT_BLOCK_SIZE
    ∧ table_ st' = [None] ∧ length (from_ st') = 1
    ∧ inv st'
    ∧ (∀ k, find st' k = Ok (end_ st') ∧ at_ st' k = Err KeyNotFound)
    ∧ begin_ st' = Ok (end_ st') ∧ traverse st' = Ok [].
Proof.
  destruct (clear_total st) as (st' & Hc & Hs & Hcap & Hb & Ht & Hf & Hinv & He).
  exists st'. pose proof Hinv as (Htbl & _). pose proof Htbl as (Hwf & _).
  assert (Hno : ∀ k, k ∉ keys_of st').
  { intros k. unfold keys_of. rewrite He. apply not_elem_of_nil. }
  split_and!; try done.
  - intros k. split; [|by apply at_absent].
    rewrite find_FindPosition, end_capacity by done. by apply FindPosition_not_in.
  - apply begin_end_iff_empty; [done|]. unfold empty. by rewrite Hs.
  - rewrite traverse_spec by done. by rewrite He.
Qed.

(** X2 (range and initializer-list constructors).  When the constructor
    returns, the table holds for every key of the range the value of its
    first occurrence, holds no other key, and its size is the number of
    distinct keys of the range. *)
Theorem X2_range_constructor_first_wins fuel (l : list entry) st :
  construct_range fuel l = Ok st →
  inv st
  ∧ (∀ l1 k v l2, l = l1 ++ (k, v) :: l2 → k ∉ l1.*1 → at_ st k = Ok v)
  ∧ (∀ k, k ∉ l.*1 → at_ st k = Err KeyNotFound)
  ∧ size st = length (remove_dups l.*1).
Proof.
  intros Hrun.
  pose proof (insert_all_represents fuel l construct ∅ st construct_represents Hrun)
    as Hrep.
  rewrite (left_id_L ∅ (∪)) in Hrep. split_and!.
  - by destruct Hrep.
  - intros l1 k v l2 -> Hk. rewrite (at_represents st _ k Hrep).
    rewrite list_to_map_app, lookup_union_r by (by apply not_elem_of_list_to_map_1).
    by rewrite list_to_map_cons, lookup_insert_eq.
  - intros k Hk. rewrite (at_represents st _ k Hrep).
    by rewrite (not_elem_of_list_to_map_1 l k Hk).
  - rewrite (size_represents st _ Hrep). apply size_list_to_map.
Qed.

(** X3 (copy constructor).  A copy of a table that satisfies the invariant
    satisfies it too and holds the same associations: [at] gives the same
    outcome for every key, and the sizes agree. *)
Theorem X3_copy_constructor fuel other st :
  inv other → construct_copy fuel other = Ok st →
  inv st ∧ (∀ k, at_ st k = at_ other k) ∧ size st = size other.
Proof.
  intros Hinv Hrun. unfold construct_copy in Hrun.
  rewrite traverse_spec in Hrun by (by destruct Hinv as ((? & _) & _)).
  cbn [mbind result_bind] in Hrun.
  pose proof (insert_all_represents fuel _ construct ∅ st construct_represents Hrun)
    as Hrep.
  rewrite (left_id_L ∅ (∪)) in Hrep. fold (contents other) in Hrep.
  pose proof (inv_represents other Hinv) as Hrep'.
  split_and!; [by destruct Hrep | |].
  - intros k. by rewrite (at_represents st _ k Hrep), (at_represents other _ k Hrep').
  - by rewrite (size_represents st _ Hrep), (size_represents other _ Hrep').
Qed.

(** X4 (assignment operator).  Whatever the assigned-to table held, and
    also when it is the assigned table itself, after [operator=] it
    satisfies the invariant and holds the associations of the assigned
    table. *)
Theorem X4_assignment fuel st other st' :
  inv other → assign_from fuel st other = Ok st' →
  inv st' ∧ (∀ k, at_ st' k = at_ other k) ∧ size st' = size other.
Proof.
  intros Hinv Hrun. unfold assign_from in Hrun.
  rewrite traverse_spec in Hrun by (by destruct Hinv as ((? & _) & _)).
  cbn [mbind result_bind] in Hrun.
  destruct (clear_total st) as (st1 & Hc & _ & _ & _ & _ & _ & Hinv1 & He1).
  rewrite Hc in Hrun. cbn [mbind result_bind] in Hrun.
  assert (Hrep1 : represents st1 ∅).
  { split; [done|]. by rewrite He1, map_to_list_empty. }
  pose proof (insert_all_represents fuel _ _ ∅ st' Hrep1 Hrun) as Hrep.
  rewrite (left_id_L ∅ (∪)) in Hrep. fold (contents other) in Hrep.
  pose proof (inv_represents other Hinv) as Hrep'.
  split_and!; [by destruct Hrep | |].
  - intros k. by rewrite (at_represents st' _ k Hrep), (at_represents other _ k Hrep').
  - by rewrite (size_represents st' _ Hrep), (size_represents other _ Hrep').
Qed.


(** ** Iterators *)

Lemma skip_empty_back_spec st it :
  it < end_ st →
  (∃ j, j ≤ it ∧ skip_empty_back st it = Ok j
        ∧ (∃ e, table_ st !! j = Some (Some e))
        ∧ ∀ i, j < i ≤ it → table_ st !! i = Some None)
  ∨ (skip_empty_back st it = Err OutOfRange
     ∧ ∀ i, i ≤ it → table_ st !! i = Some None).
Proof.
  induction it as [|it IH]; intros Hlt.
  - cbn [skip_empty_back]. rewrite decide_True by lia.
    destruct (read_lt (table_ st) 0 Hlt) as (slot & -> & Hslot). cbn.
    destruct slot as [e|].
    + left. exists 0. split_and!; [lia | done | by eauto | intros; lia].
    + right. split; [done|]. intros i Hi. by replace i with 0 by lia.
  - cbn [skip_empty_back]. rewrite decide_True by lia.
    destruct (read_lt (table_ st) (S it) Hlt) as (slot & -> & Hslot). cbn.
    destruct slot as [e|].
    + left. exists (S it). split_and!; [lia | done | by eauto | intros; lia].
    + destruct IH as [(j & Hj & Hrun & Hocc & Hnone)|[Hrun Hnone]]; [unfold end_ in *; lia| |].
      * left. exists j. split_and!; [lia | done | done |].
        intros i Hi. destruct (decide (i = S it)) as [->|]; [done|]. apply Hnone. lia.
      * right. split; [done|].
        intros i Hi. destruct (decide (i = S it)) as [->|]; [done|]. apply Hnone. lia.
Qed.

Lemma iter_incr_spec st it :
  it < end_ st →
  it < iter_incr st it ≤ end_ st
  ∧ (∀ i, it < i < iter_incr st it → table_ st !! i = Some None)
  ∧ (iter_incr st it < end_ st → ∃ e, table_ st !! iter_incr st it = Some (Some e)).
Proof.
  intros Hlt. unfold iter_incr.
  destruct (skip_empty_spec (length (table_ st)) st (it + 1)) as (Hr & Hnone & Hocc);
    [lia | unfold end_; lia |].
  split; [lia|]. split; [|done]. intros i Hi. apply Hnone. lia.
Qed.

(** X5 (begin and operator++).  [begin()] is the first occupied slot, or
    [end()] when there is none.  From a position before [end()],
    [operator++] moves to the next occupied slot, or to [end()] when none
    is left: it passes only empty slots and stops at no empty slot. *)
Theorem X5_iterator_increment st :
  wf st →
  (∃ b, begin_ st = Ok b ∧ b ≤ end_ st
     ∧ (∀ i, i < b → table_ st !! i = Some None)
     ∧ (b < end_ st → ∃ e, deref st b = Ok e))
  ∧ (∀ it, it < end_ st →
       it < iter_incr st it ≤ end_ st
       ∧ (∀ i, it < i < iter_incr st it → table_ st !! i = Some None)
       ∧ (iter_incr st it < end_ st → ∃ e, deref st (iter_incr st it) = Ok e)).
Proof.
  intros Hwf. split.
  - destruct (begin_spec st Hwf) as (b & Hb & Hle & Hnone & Hocc).
    exists b. split_and!; [done | done | done |].
    intros Hlt. destruct (Hocc Hlt) as [e He]. exists e. by apply deref_occupied.
  - intros it Hit. destruct (iter_incr_spec st it Hit) as (Hr & Hnone & Hocc).
    split; [done|]. split; [done|].
    intros Hlt. destruct (Hocc Hlt) as [e He]. exists e. by apply deref_occupied.
Qed.

(** X6 (operator--).  Decrement undoes increment: from the position
    [operator++] reaches from an occupied slot, [operator--] returns to
    that slot; and where [operator--] returns a slot from [end()] or from
    an occupied slot, it is an occupied slot from which [operator++] leads
    back.  Its loop guards against [end()] only, so decrementing a
    position with no occupied slot before it, such as [begin()], steps out
    of the vector. *)
Theorem X6_iterator_decrement st :
  wf st →
  (∀ j e, table_ st !! j = Some (Some e) → iter_decr st (iter_incr st j) = Ok j)
  ∧ (∀ it j, it = end_ st ∨ (∃ e, table_ st !! it = Some (Some e)) →
       iter_decr st it = Ok j →
       (∃ e, deref st j = Ok e) ∧ iter_incr st j = it)
  ∧ (∀ b, begin_ st = Ok b → iter_decr st b = Err OutOfRange).
Proof.
  intros Hwf.
  assert (Hdecr : ∀ it, 0 < it → it ≤ end_ st →
    (∃ j, j < it ∧ iter_decr st it = Ok j
          ∧ (∃ e, table_ st !! j = Some (Some e))
          ∧ ∀ i, j < i < it → table_ st !! i = Some None)
    ∨ (iter_decr st it = Err OutOfRange ∧ ∀ i, i < it → table_ st !! i = Some None)).
  { intros [|it] Hpos Hle; [lia|]. cbn [iter_decr].
    destruct (skip_empty_back_spec st it) as [(j & Hj & Hrun & Hocc & Hnone)|[Hrun Hnone]];
      [lia | |].
    - left. exists j. split_and!; [lia | done | done |]. intros i Hi. apply Hnone. lia.
    - right. split; [done|]. intros i Hi. apply Hnone. lia. }
  split_and!.
  - intros j e Hj. pose proof (lookup_lt_Some _ _ _ Hj) as Hlt.
    destruct (iter_incr_spec st j Hlt) as (Hr & Hnone & _).
    destruct (Hdecr (iter_incr st j)) as [(j' & Hj' & Hrun & [e' He'] & Hnone')|[_ Hall]];
      [lia | lia | |].
    + rewrite Hrun. f_equal. destruct (decide (j' = j)) as [|Hne]; [done|]. exfalso.
      destruct (decide (j' < j)).
      * rewrite Hnone' in Hj by lia. done.
      * rewrite Hnone in He' by lia. done.
    + rewrite Hall in Hj by lia. done.
  - intros it j Hit Hrun.
    assert (Hle : it ≤ end_ st).
    { destruct Hit as [->|[e He]]; [done|]. apply lookup_lt_Some in He. unfold end_. lia. }
    destruct it as [|it]; [done|].
    destruct (Hdecr (S it)) as [(j' & Hj' & Hrun' & [e' He'] & Hnone')|[Hrun' _]];
      [lia | done | | congruence].
    rewrite Hrun' in Hrun. simplify_eq.
    split; [exists e'; by apply deref_occupied|].
    pose proof (lookup_lt_Some _ _ _ He') as Hlt.
    destruct (iter_incr_spec st j Hlt) as (Hr & Hnone & Hocc).
    destruct (decide (iter_incr st j = S it)) as [|Hne]; [done|]. exfalso.
    destruct (decide (iter_incr st j < S it)) as [Hlt'|Hge].
    + destruct Hocc as [e He]; [lia|]. rewrite Hnone' in He by lia. done.
    + destruct Hit as [Hend|[e He]]; [lia|]. rewrite Hnone in He by lia. done.
  - intros b Hb. destruct (begin_spec st Hwf) as (b' & Hb' & Hle & Hnone & _).
    rewrite Hb' in Hb. simplify_eq. destruct b as [|b]; [done|].
    destruct (Hdecr (S b)) as [(j' & Hj' & _ & [e' He'] & _)|[Hrun' _]];
      [lia | done | | done].
    rewrite Hnone in He' by lia. done.
Qed.


(** ** erase and the order of iteration *)

Lemma filter_all {A : Type} (P : A → Prop) `{∀ x, Decision (P x)} (l : list A) :
  (∀ x, x ∈ l → P x) → filter P l = l.
Proof.
  induction l as [|x l IH]; intros Hall; [done|].
  rewrite filter_cons_True by (apply Hall; left).
  f_equal. apply IH. intros y Hy. apply Hall. by right.
Qed.

Lemma omap_erase_filter (t : list (option entry)) (h : nat) k v :
  NoDup (omap id t).*1 → t !! h = Some (Some (k, v)) →
  omap id (<[h := None]> t) = filter (λ e, e.1 ≠ k) (omap id t).
Proof.
  revert h. induction t as [|o t IH]; intros h Hnd Hh; [by destruct h|].
  destruct h as [|h]; cbn in Hh.
  - simplify_eq. cbn in Hnd. apply NoDup_cons in Hnd as [Hnotin _].
    change (omap id (<[0 := None]> (Some (k, v) :: t))) with (omap id t).
    change (omap id (Some (k, v) :: t)) with ((k, v) :: omap id t).
    rewrite filter_cons_False by (intros Hne; by apply Hne).
    symmetry. apply filter_all. intros e He <-. apply Hnotin.
    apply list_elem_of_fmap. by exists e.
  - change (<[S h := None]> (o :: t)) with (o :: <[h := None]> t).
    destruct o as [e0|].
    + cbn in Hnd. apply NoDup_cons in Hnd as [Hnotin Hnd].
      change (omap id (Some e0 :: <[h := None]> t)) with (e0 :: omap id (<[h := None]> t)).
      change (omap id (Some e0 :: t)) with (e0 :: omap id t).
      rewrite filter_cons_True.
      * f_equal. by apply IH.
      * intros Heq. apply Hnotin. rewrite Heq.
        apply list_elem_of_fmap. exists (k, v). split; [done|]. by eapply entries_lookup.
    + change (omap id (None :: <[h := None]> t)) with (omap id (<[h := None]> t)).
      change (omap id (None :: t)) with (omap id t). by apply IH.
Qed.

(** X7 (erase keeps the order).  After [erase] of a key a traversal yields
    what it yielded before without the entry of that key: the other
    entries come in their old order with their old values. *)
Theorem X7_erase_keeps_iteration_order st k st' :
  inv st → erase st k = Ok st' →
  ∃ l, traverse st = Ok l ∧ traverse st' = Ok (filter (λ e, e.1 ≠ k) l).
Proof.
  intros Hinv Herase. pose proof Hinv as (Htbl & _). pose proof Htbl as (Hwf & _ & Hnd).
  exists (entries st). split; [by apply traverse_spec|].
  destruct (decide (k ∈ keys_of st)) as [Hin|Hnotin].
  - apply keys_elem_of in Hin as [h [v Hh]].
    destruct (erase_present st k h v Hinv Hh)
      as (st1 & Herase1 & Ht & _ & _ & _ & _ & Hinv1 & _).
    rewrite Herase1 in Herase. simplify_eq.
    rewrite traverse_spec by (by destruct Hinv1 as ((? & _) & _)).
    f_equal. unfold entries. rewrite Ht. by eapply omap_erase_filter.
  - rewrite (erase_absent st k) in Herase by (by apply FindPosition_not_in).
    simplify_eq. rewrite traverse_spec by done. f_equal. symmetry.
    apply filter_all. intros e He <-. apply Hnotin.
    apply list_elem_of_fmap. by exists e.
Qed.

(** ** Sizes *)

(** X8 (size accounting).  In every reachable state [size()] is the number
    of keys the operations have associated with a value, which is the
    number of occupied slots, and [empty()] holds exactly when there is no
    such key. *)
Theorem X8_size_counts_live_keys st ops :
  reachable st ops →
  size st = base.size (model ops)
  ∧ size st = length (omap id (table_ st))
  ∧ (empty st = true ↔ model ops = ∅).
Proof.
  intros Hreach. pose proof (reachable_represents st ops Hreach) as Hrep.
  pose proof (size_represents st _ Hrep) as Hsz.
  split; [done|]. split; [by destruct Hrep as [(_ & _ & ?) _]|].
  unfold empty. rewrite bool_decide_eq_true, Hsz. apply map_size_empty_iff.
Qed.

Lemma insert_block_size fuel st e st' :
  inv st → DEFAULT_BLOCK_SIZE ≤ BLOCK_SIZE st → insert fuel st e = Ok st' →
  DEFAULT_BLOCK_SIZE ≤ BLOCK_SIZE st'.
Proof.
  intros Hinv Hb Hins.
  destruct (insert_ok_fuel fuel st e st' Hinv Hins)
    as (_ & [[_ ->]|(_ & _ & [[_ Hb']|(values & _ & _ & Hb')])]); [done | lia |].
  rewrite Hb'. apply Nat.le_max_l.
Qed.

Lemma index_block_size fuel st k st1 it v :
  inv st → DEFAULT_BLOCK_SIZE ≤ BLOCK_SIZE st → index fuel st k = Ok (st1, it, v) →
  DEFAULT_BLOCK_SIZE ≤ BLOCK_SIZE st1.
Proof.
  intros Hinv Hb Hidx. unfold index in Hidx.
  destruct (find st k) as [it0|]; [|done]. cbn [mbind result_bind] in Hidx.
  destruct (decide (it0 = end_ st)).
  - destruct (insert fuel st (k, default_value)) as [st2|] eqn:Hins; [|done].
    cbn [mbind result_bind] in Hidx.
    destruct (find st2 k) as [it2|]; [|done]. cbn [mbind result_bind] in Hidx.
    destruct (deref st2 it2) as [e2|]; [|done]. cbn in Hidx. simplify_eq.
    by eapply insert_block_size.
  - cbn [mbind result_bind] in Hidx.
    destruct (find st k) as [it2|]; [|done]. cbn [mbind result_bind] in Hidx.
    destruct (deref st it2) as [e2|]; [|done]. cbn in Hidx. by simplify_eq.
Qed.

Lemma reachable_block_size st ops :
  reachable st ops → DEFAULT_BLOCK_SIZE ≤ BLOCK_SIZE st.
Proof.
  induction 1 as [|st ops fuel o st' Hreach IH Hstep]; [done|].
  pose proof (reachable_inv st ops Hreach) as Hinv.
  destruct o as [k v|k|k|k v|]; cbn [step] in Hstep.
  - by eapply insert_block_size.
  - unfold erase in Hstep. destruct (FindPosition st k) as [h|]; [|done].
    cbn [mbind result_bind] in Hstep. case_decide; [by simplify_eq|].
    destruct (write (table_ st) h None) as [t|]; [|done]. cbn in Hstep. by simplify_eq.
  - destruct (index fuel st k) as [[[st1 it] v]|] eqn:Hidx; [|done].
    cbn in Hstep. simplify_eq. by eapply index_block_size.
  - unfold index_assign in Hstep.
    destruct (index fuel st k) as [[[st1 it] v1]|] eqn:Hidx; [|done].
    cbn [mbind result_bind] in Hstep.
    destruct (deref st1 it) as [e|]; [|done]. cbn [mbind result_bind] in Hstep.
    destruct (write (table_ st1) it _) as [t|]; [|done]. cbn in Hstep. simplify_eq.
    cbn. by eapply index_block_size.
  - rewrite clear_spec in Hstep. by simplify_eq.
Qed.

(** X9 (shape of a reachable table).  In every reachable state the capacity
    is a power of two, both vectors have exactly that many slots, the size
    does not exceed the capacity, and the probe limit is at least the
    default of 64. *)
Theorem X9_reachable_shape st ops :
  reachable st ops →
  (∃ a, capacity_ st = 2 ^ a)
  ∧ length (table_ st) = capacity_ st ∧ length (from_ st) = capacity_ st
  ∧ size st ≤ capacity_ st
  ∧ DEFAULT_BLOCK_SIZE ≤ BLOCK_SIZE st.
Proof.
  intros Hreach.
  destruct (reachable_inv st ops Hreach) as (((Hpow & Hl1 & Hl2) & _) & _ & Hsz).
  split_and!; [done | done | done | | by eapply reachable_block_size].
  unfold size. rewrite Hsz, <- Hl1. apply length_omap_le.
Qed.


(** ** insert, Rebuild and the probe walk *)

Lemma at_entries st k :
  tbl_inv st →
  at_ st k = match contents st !! k with Some v => Ok v | None => Err KeyNotFound end.
Proof.
  intros Htbl. pose proof Htbl as (_ & _ & Hnd). unfold contents.
  destruct (at_cases st k Htbl) as [[Hk ->]|(i & v & Hi & ->)].
  - by rewrite (not_elem_of_list_to_map_1 _ k Hk).
  - rewrite (elem_of_list_to_map_1 _ k v Hnd); [done|]. by eapply entries_lookup.
Qed.

Lemma at_absent_iff st k : tbl_inv st → at_ st k = Err KeyNotFound ↔ k ∉ keys_of st.
Proof.
  intros Htbl. split; [|by apply at_absent]. intros Herr.
  destruct (at_cases st k Htbl) as [[? _]|(i & v & _ & Hok)]; [done | congruence].
Qed.

Lemma contents_absent st k :
  inv st → at_ st k = Err KeyNotFound → contents st !! k = None.
Proof.
  intros Hinv Habs. rewrite (at_represents st _ k (inv_represents st Hinv)) in Habs.
  by destruct (contents st !! k).
Qed.

(** X10 (insert of a new key).  When [insert] of a key that [at] does not
    find returns, the key is found with the inserted value, the size has
    grown by one, and [at] gives for every other key what it gave before,
    whether or not the table was rebuilt on the way. *)
Theorem X10_insert_new_key fuel st k v st' :
  inv st → at_ st k = Err KeyNotFound → insert fuel st (k, v) = Ok st' →
  inv st' ∧ at_ st' k = Ok v ∧ size st' = size st + 1
  ∧ ∀ k', k' ≠ k → at_ st' k' = at_ st k'.
Proof.
  intros Hinv Habs Hins.
  pose proof (inv_represents st Hinv) as Hrep.
  pose proof (contents_absent st k Hinv Habs) as Hm.
  destruct (insert_represents fuel st _ k v st' Hrep Hins) as (Hrep' & Hsz & _).
  cbn [model_step] in Hrep'. rewrite Hm in Hrep'.
  split_and!; [by destruct Hrep' | | by apply Hsz |].
  - by rewrite (at_represents st' _ k Hrep'), lookup_insert_eq.
  - intros k' Hne.
    rewrite (at_represents st' _ k' Hrep'), (at_represents st _ k' Hrep).
    by rewrite lookup_insert_ne.
Qed.

(** X11 (Rebuild keeps the entries).  Called on a table in the state a
    failed probe walk leaves, [Rebuild], when it returns, has lost and added
    nothing: the size is the same, [at] gives for every key what it gave
    before, and the invariant of a committed table holds. *)
Theorem X11_rebuild_keeps_entries fuel st st' :
  tbl_inv st → size_ st = length (entries st) → Rebuild fuel st = Ok st' →
  inv st' ∧ size st' = size st ∧ entries st' ≡ₚ entries st
  ∧ ∀ k, at_ st' k = at_ st k.
Proof.
  intros Htbl Hsz Hrun. pose proof Htbl as (_ & _ & Hnd).
  destruct (Rebuild_ok fuel st st' Hnd Hsz Hrun) as (Hinv' & Hperm & _).
  pose proof Hinv' as (Htbl' & _ & Hsz'). pose proof Htbl' as (_ & _ & Hnd').
  split_and!; [done | | done |].
  - unfold size. by rewrite Hsz, Hsz', Hperm.
  - intros k. rewrite (at_entries st' k Htbl'), (at_entries st k Htbl).
    unfold contents. by rewrite (list_to_map_proper _ _ Hnd' Hperm).
Qed.

(** X12 (rebuild policy).  When every reinsertion of [Rebuild] succeeds with
    its first probe walk, [Rebuild] returns with the capacity and probe
    limit it chose: the capacity is the smallest power of two that is at
    least five times the number of entries, the probe limit is the larger
    of 64 and twice the largest number of entries sharing a bucket, and
    five times the size is at most the capacity. *)
Theorem X12_rebuild_policy st st0 values st' :
  tbl_inv st → size_ st = length (entries st) →
  Rebuild_prepare st = Ok (st0, values) →
  insert_all (insert 1) st0 values = Ok st' →
  (∀ fuel, Rebuild (S fuel) st = Ok st')
  ∧ (∃ a, capacity_ st' = 2 ^ a ∧ size st * STANDARD_DIFF ≤ 2 ^ a
          ∧ ∀ a', size st * STANDARD_DIFF ≤ 2 ^ a' → a ≤ a')
  ∧ BLOCK_SIZE st'
    = Nat.max DEFAULT_BLOCK_SIZE
        (2 * max_element (cluster st' (entries st) <$> seq 0 (capacity_ st')))
  ∧ size st' = size st
  ∧ size st' * STANDARD_DIFF ≤ capacity_ st'.
Proof.
  intros (_ & _ & Hnd) Hsz Hprep Hall.
  destruct (Rebuild_prepare_spec st) as (st0' & Hprep' & _).
  rewrite Hprep' in Hprep. simplify_eq.
  destruct (Rebuild_without_nested st st0 st' Hnd Hsz Hprep' Hall)
    as (Hreb & Hcap & Hblock & Hsize & Hload).
  unfold size in *. rewrite Hsz. done.
Qed.

Lemma insert_probe_mono n m st ptr d h2 r :
  insert_probe n st ptr d h2 = Ok r → n ≤ m → insert_probe m st ptr d h2 = Ok r.
Proof.
  revert m st ptr d h2. induction n as [|n IH]; intros m st ptr d h2 Hrun Hle;
    cbn [insert_probe] in Hrun.
  { destruct ptr as [e|]; [|by rewrite insert_probe_None; simplify_eq].
    destruct m as [|m]; cbn [insert_probe]; case_decide; done. }
  destruct m as [|m]; [lia|]. cbn [insert_probe].
  destruct ptr as [e|]; [|done]. case_decide; [|done].
  destruct (read (table_ st) h2) as [slot|]; [|done].
  destruct (read (from_ st) h2) as [f|]; [|done].
  cbn [mbind result_bind] in *. case_decide; apply IH; (done || lia).
Qed.

(** X13 (the probe walk ends and conserves the entries).  On a table that
    satisfies the table invariant, the probe walk of [insert] for a new
    key ends, after at most (number of slots + 1) * [BLOCK_SIZE] rounds:
    every larger bound gives the same outcome.  The walk changes neither
    capacity nor probe limit nor size counter, keeps the table invariant,
    and the entry it ends with in hand, if any, together with the entries
    of the table, are the entries the table had plus the new one. *)
Theorem X13_probe_walk_ends st e :
  tbl_inv st → e.1 ∉ keys_of st →
  ∃ st' ptr',
    (∀ n, probe_bound st ≤ n →
       insert_probe n st (Some e) 0 (GetBucket st e.1) = Ok (st', ptr'))
    ∧ tbl_inv st'
    ∧ capacity_ st' = capacity_ st ∧ BLOCK_SIZE st' = BLOCK_SIZE st
    ∧ size_ st' = size_ st
    ∧ option_list ptr' ++ entries st' ≡ₚ e :: entries st.
Proof.
  intros Htbl Hfresh. pose proof Htbl as (Hwf & _).
  pose proof (GetBucket_lt st e.1 Hwf) as Hb.
  destruct (insert_probe_total st e (GetBucket st e.1) Hwf Hb) as (st' & ptr' & Hrun).
  exists st', ptr'. split.
  - intros n Hn. by eapply insert_probe_mono.
  - eapply insert_probe_spec; [done | done | | done].
    by rewrite Nat.add_0_r, Nat.mod_small.
Qed.

Lemma exists_free_slot (t : list (option entry)) :
  length (omap id t) < length t → ∃ i, t !! i = Some None.
Proof.
  induction t as [|o t IH]; cbn; [lia|]. destruct o as [e|]; cbn.
  - intros Hlt. destruct IH as [i Hi]; [lia|]. by exists (S i).
  - intros _. by exists 0.
Qed.

(** X14 (insert without rebuild).  [insert] of a new key returns with its
    first probe walk, for every positive fuel, leaving capacity and probe
    limit as they are and raising the size by one, whenever a slot of the
    key's probe window is free; in particular whenever the table is not
    full and its capacity does not exceed the probe limit, so that a table
    of capacity up to 64 is filled to the last slot before it is rebuilt. *)
Theorem X14_insert_without_rebuild st k v :
  inv st → k ∉ keys_of st →
  (∃ j, j < BLOCK_SIZE st ∧ table_ st !! probe_slot st k j = Some None)
  ∨ (size st < capacity_ st ∧ capacity_ st ≤ BLOCK_SIZE st) →
  ∃ st', (∀ fuel, insert (S fuel) st (k, v) = Ok st')
    ∧ capacity_ st' = capacity_ st ∧ BLOCK_SIZE st' = BLOCK_SIZE st
    ∧ size st' = size st + 1.
Proof.
  intros Hinv Hfresh Hfree. pose proof Hinv as ((Hwf & _) & _ & Hsz).
  pose proof Hwf as (_ & Hl1 & _).
  assert (Hslot : ∃ j, j < BLOCK_SIZE st
            ∧ table_ st !! ((GetBucket st k + j) mod capacity_ st) = Some None).
  { destruct Hfree as [(j & Hj & Hnone)|[Hlt Hle]].
    - exists j. by rewrite <- probe_slot_mod.
    - destruct (exists_free_slot (table_ st)) as [i Hi].
      { unfold size, entries in *. lia. }
      pose proof (lookup_lt_Some _ _ _ Hi) as Hi'.
      destruct (mod_reach (capacity_ st) (GetBucket st k) i) as (j & Hj & Heq); [lia|].
      exists j. split; [lia|]. by rewrite Heq. }
  destruct Hslot as (j & Hj & Hnone).
  destruct (insert_free_slot st k v j Hinv Hfresh Hj Hnone) as (st' & Hins & [Hc Hb] & Hs).
  exists st'. split_and!; [|done|done|done].
  by apply insert_one_walk.
Qed.

(** X15 (assignment through operator[]).  When [t[k] = v] returns, [at] of
    [k] gives [v], [at] of every other key gives what it gave before, and
    the size has grown by one if [k] was not in the table and is unchanged
    if it was. *)
Theorem X15_index_assign fuel st k v st' :
  inv st → index_assign fuel st k v = Ok st' →
  inv st' ∧ at_ st' k = Ok v
  ∧ (∀ k', k' ≠ k → at_ st' k' = at_ st k')
  ∧ size st' = (if decide (k ∈ keys_of st) then size st else size st + 1).
Proof.
  intros Hinv Hrun. pose proof (inv_represents st Hinv) as Hrep.
  pose proof (index_assign_represents fuel st _ k v st' Hrep Hrun) as Hrep'.
  split_and!; [by destruct Hrep' | | |].
  - by rewrite (at_represents st' _ k Hrep'), lookup_insert_eq.
  - intros k' Hne.
    rewrite (at_represents st' _ k' Hrep'), (at_represents st _ k' Hrep).
    by rewrite lookup_insert_ne.
  - rewrite (size_represents st' _ Hrep'), (size_represents st _ Hrep), map_size_insert.
    case_decide as Hk; rewrite (represents_keys st _ k Hrep) in Hk.
    + destruct Hk as [x ->]. done.
    + destruct (contents st !! k); [|cbn; lia]. exfalso. by apply Hk.
Qed.

(** X16 (insert then erase).  [erase] of a key right after the [insert]
    that added it gives back the associations and the size the table had
    before, though not always its layout, and a second [erase] of the key
    changes nothing. *)
Theorem X16_insert_then_erase fuel st k v st1 :
  inv st → at_ st k = Err KeyNotFound → insert fuel st (k, v) = Ok st1 →
  ∃ st2, erase st1 k = Ok st2 ∧ inv st2 ∧ size st2 = size st
    ∧ (∀ k', at_ st2 k' = at_ st k')
    ∧ erase st2 k = Ok st2.
Proof.
  intros Hinv Habs Hins.
  pose proof (inv_represents st Hinv) as Hrep.
  pose proof (contents_absent st k Hinv Habs) as Hm.
  destruct (insert_represents fuel st _ k v st1 Hrep Hins) as (Hrep1 & _).
  cbn [model_step] in Hrep1. rewrite Hm in Hrep1.
  destruct (erase_safe st1 k) as (st2 & Herase & _);
    [by destruct Hrep1 as [((? & _) & _) _]|].
  pose proof (erase_represents st1 _ k st2 Hrep1 Herase) as Hrep2.
  rewrite delete_insert_eq, delete_id in Hrep2 by done.
  exists st2. split_and!; [done | by destruct Hrep2 | | |].
  - by rewrite (size_represents st2 _ Hrep2), (size_represents st _ Hrep).
  - intros k'. by rewrite (at_represents st2 _ k' Hrep2), (at_represents st _ k' Hrep).
  - apply erase_absent. by eapply FindPosition_model_None.
Qed.


(** X17 (outcomes of at and operator[]).  In a reachable state [at] throws
    [KeyNotFound] exactly when the key is in no slot, and returns the
    stored value otherwise.  No public operation has another failure:
    whatever is not a result is the model running out of fuel inside
    [insert], that is, a call that does not return.  [operator[]] on a key
    in the table returns a reference to its slot and leaves the state
    alone; on a key not in the table its outcome is that of [insert] of the
    key with the default value: when that returns, [operator[]] returns a
    reference to a slot holding the key with the default value and the size
    has grown by one; and it does return, without a rebuild, whenever a slot
    of the key's probe window is free. *)
Theorem X17_at_and_index_outcomes st ops k :
  reachable st ops →
  (k ∉ keys_of st ↔ at_ st k = Err KeyNotFound)
  ∧ (∀ v, (∃ i, table_ st !! i = Some (Some (k, v))) ↔ at_ st k = Ok v)
  ∧ (∀ fuel o err, step fuel st o = Err err → err = OutOfFuel)
  ∧ (k ∈ keys_of st → ∀ fuel, ∃ it v,
       index fuel st k = Ok (st, it, v) ∧ table_ st !! it = Some (Some (k, v)))
  ∧ (k ∉ keys_of st → ∀ fuel,
       match insert fuel st (k, default_value) with
       | Ok st1 =>
           ∃ it, index fuel st k = Ok (st1, it, default_value)
                 ∧ table_ st1 !! it = Some (Some (k, default_value))
                 ∧ size st1 = size st + 1
       | Err err => index fuel st k = Err err ∧ err = OutOfFuel
       end)
  ∧ (k ∉ keys_of st → ∀ j, j < BLOCK_SIZE st →
       table_ st !! probe_slot st k j = Some None →
       ∃ st1 it, index 1 st k = Ok (st1, it, default_value)
                 ∧ table_ st1 !! it = Some (Some (k, default_value))
                 ∧ size st1 = size st + 1).
Proof.
  intros Hreach. pose proof (reachable_represents st ops Hreach) as Hrep.
  pose proof Hrep as [Hinv _]. pose proof Hinv as (Htbl & _).
  pose proof Htbl as (Hwf & _ & Hnd).
  assert (Habsent : ∀ fuel, k ∉ keys_of st →
    match insert fuel st (k, default_value) with
    | Ok st1 =>
        ∃ it, index fuel st k = Ok (st1, it, default_value)
              ∧ table_ st1 !! it = Some (Some (k, default_value))
              ∧ size st1 = size st + 1
    | Err err => index fuel st k = Err err ∧ err = OutOfFuel
    end).
  { intros fuel Hk.
    assert (Hm : model ops !! k = None).
    { rewrite (represents_keys st _ k Hrep) in Hk.
      destruct (model ops !! k); [|done]. exfalso. by apply Hk. }
    pose proof (index_absent fuel st _ k Hrep Hm) as Habs.
    pose proof (insert_safe fuel st (k, default_value) Hwf) as Hsafe.
    destruct (insert fuel st (k, default_value)) as [st1|err].
    - destruct Habs as (h & Hidx & _ & Hh & _ & Hsz). by exists h.
    - done. }
  split_and!.
  - split; [by apply at_absent|]. intros Herr.
    destruct (at_cases st k Htbl) as [[? _]|(i & v & _ & Hok)]; [done | congruence].
  - intros v. split.
    + intros [i Hi]. by eapply at_present.
    + intros Hok. destruct (at_cases st k Htbl) as [[_ Herr]|(i & v' & Hi & Hok')];
        [congruence|]. exists i. congruence.
  - intros fuel o err. by apply step_err with ops.
  - intros Hin fuel. apply (represents_keys st _ k Hrep) in Hin as [v Hv].
    destruct (index_present fuel st _ k v Hrep Hv) as (h & Hidx & _ & Hh). eauto.
  - intros Hk fuel. by apply Habsent.
  - intros Hk j Hj Hfree. rewrite probe_slot_mod in Hfree by done.
    destruct (insert_free_slot st k default_value j Hinv Hk Hj Hfree)
      as (st1 & Hins & _ & _).
    specialize (Habsent 1 Hk). rewrite Hins in Habsent.
    destruct Habsent as (it & ? & ? & ?). by exists st1, it.
Qed.

End Verification.

(** * The claims on concrete tables *)

Module StuckInsert.
Import StuckInsertInput.

Lemma state_run : run 3 ops construct = Ok state.
Proof. vm_compute. reflexivity. Qed.

Lemma state_reachable : reachable state ops.
Proof. exact (run_construct_reachable 3 ops state state_run). Qed.

Lemma state_params :
  size state = 67 ∧ capacity_ state = 512 ∧ BLOCK_SIZE state = 64.
Proof. vm_compute. done. Qed.

Lemma state_fresh : 67 ∉ keys_of state.
Proof. apply (bool_decide_unpack (67 ∉ keys_of state)). vm_compute. exact I. Qed.

Lemma state_classes c :
  c < 4 → length (filter (λ k, hasher_ k = c) (67 :: keys_of state)) ≤ 32.
Proof.
  intros Hc. destruct c as [|[|[|[|c]]]]; [| | | |lia]; vm_compute; lia.
Qed.

(** C4 (termination of insert), refuted.  The table reached by inserting the
    keys 0 to 66 holds 67 entries at capacity 512 and probe limit 64.
    [insert] of key 67, which is not in the table, returns for no amount of
    fuel: every rebuild chooses capacity 512 and probe limit 64 again, and
    68 entries whose buckets are 0 to 3 do not fit in 64 probes.  The first
    of these rebuilds is evaluated: it returns with the capacity and the
    probe limit it started from. *)
Theorem C4_insert_never_returns :
  reachable state ops
  ∧ (size state = 67 ∧ capacity_ state = 512 ∧ BLOCK_SIZE state = 64)
  ∧ find state 67 = Ok (end_ state)
  ∧ insert_probe (probe_bound state) state (Some (67, 67)) 0 (GetBucket state 67)
    = Ok stuck_walked
  ∧ is_Some (snd stuck_walked)
  ∧ Rebuild 1 (fst stuck_walked) = Ok stuck_rebuilt
  ∧ (capacity_ stuck_rebuilt = capacity_ state
     ∧ BLOCK_SIZE stuck_rebuilt = BLOCK_SIZE state)
  ∧ ∀ fuel, insert fuel state (67, 67) = Err OutOfFuel.
Proof.
  split; [exact state_reachable|]. split; [exact state_params|].
  split; [vm_compute; reflexivity|]. split; [vm_compute; reflexivity|].
  split; [vm_compute; by eexists|]. split; [vm_compute; reflexivity|].
  split; [vm_compute; split; reflexivity|].
  intros fuel. apply insert_stuck.
  - exact (reachable_inv state ops state_reachable).
  - exact state_fresh.
  - exact (proj2 (proj2 state_params)).
  - pose proof (reachable_inv state ops state_reachable) as (_ & _ & Hsz).
    pose proof state_params as (Hs & _). unfold size in Hs. lia.
  - intros k _. apply Nat.mod_upper_bound. lia.
  - exact state_classes.
Qed.

Lemma state_insert_stuck fuel v : insert fuel state (67, v) = Err OutOfFuel.
Proof.
  apply insert_stuck.
  - exact (reachable_inv state ops state_reachable).
  - exact state_fresh.
  - exact (proj2 (proj2 state_params)).
  - pose proof (reachable_inv state ops state_reachable) as (_ & _ & Hsz).
    pose proof state_params as (Hs & _). unfold size in Hs. lia.
  - intros k _. apply Nat.mod_upper_bound. lia.
  - exact state_classes.
Qed.

Lemma state_find_67 : find state 67 = Ok (end_ state).
Proof. vm_compute. reflexivity. Qed.

(** C8 (operator[] never fails), refuted.  On the table reached by
    inserting the keys 0 to 66, key 67 has no entry: [at] throws
    [KeyNotFound] and [find] returns [end()].  [operator[]] therefore calls
    [insert] of key 67 with the default value, which returns for no amount
    of fuel, and so neither does [operator[]], nor an assignment through
    it: no reference is returned and the size does not grow.  It is the
    endless retry loop of [insert] shown for C4. *)
Theorem C8_index_never_returns :
  reachable state ops
  ∧ size state = 67
  ∧ (67 ∉ keys_of state)
  ∧ at_ state 67 = Err KeyNotFound
  ∧ find state 67 = Ok (end_ state)
  ∧ (∀ fuel, insert fuel state (67, default_value) = Err OutOfFuel)
  ∧ (∀ fuel, index fuel state 67 = Err OutOfFuel)
  ∧ (∀ fuel, step fuel state (OpIndex 67) = Err OutOfFuel)
  ∧ (∀ fuel v, index_assign fuel state 67 v = Err OutOfFuel).
Proof.
  assert (Hindex : ∀ fuel, index fuel state 67 = Err OutOfFuel).
  { intros fuel. unfold index. rewrite state_find_67. cbn [mbind result_bind].
    rewrite decide_True by reflexivity.
    rewrite state_insert_stuck. reflexivity. }
  split; [exact state_reachable|]. split; [exact (proj1 state_params)|].
  split; [exact state_fresh|]. split; [vm_compute; reflexivity|].
  split; [exact state_find_67|]. split; [intros fuel; apply state_insert_stuck|].
  split; [exact Hindex|].
  split; [intros fuel; cbn [step]; rewrite Hindex; reflexivity|].
  intros fuel v. unfold index_assign. rewrite Hindex. reflexivity.
Qed.

End StuckInsert.

Module CrowdedBuckets.
Import CrowdedBucketsInput.

Lemma crowded_run : run 4 crowd_ops construct = Ok crowded.
Proof. vm_compute. reflexivity. Qed.

(** C5 (rebuild policy), refuted.  The table [crowded] is reached by 103
    inserts and has capacity 512.  The probe walk of the next [insert]
    fails, so [Rebuild] runs on 103 entries; it chooses capacity 1024, but a
    walk fails again while it reinserts, and the nested [Rebuild], which
    sees only the entries reinserted so far, goes back to capacity 512.
    When the outer [Rebuild] returns the table holds 103 entries at
    capacity 512, and when [insert] returns it holds 104. *)
Theorem C5_nested_rebuild_breaks_load_factor :
  reachable crowded crowd_ops
  ∧ (size crowded = 103 ∧ capacity_ crowded = 512 ∧ BLOCK_SIZE crowded = 90)
  ∧ insert_probe (probe_bound crowded) crowded (Some trigger) 0
      (GetBucket crowded (fst trigger)) = Ok walked
  ∧ (is_Some (snd walked)
     ∧ length (omap id (table_ (fst walked))) = 103
     ∧ new_capacity (size_ (fst walked)) = 1024)
  ∧ Rebuild 3 (fst walked) = Ok after_rebuild
  ∧ (size after_rebuild = 103 ∧ capacity_ after_rebuild = 512
     ∧ BLOCK_SIZE after_rebuild = 92
     ∧ ¬ size after_rebuild * STANDARD_DIFF ≤ capacity_ after_rebuild)
  ∧ insert 4 crowded trigger = Ok after_insert
  ∧ (size after_insert = 104 ∧ capacity_ after_insert = 512
     ∧ ¬ size after_insert * STANDARD_DIFF ≤ capacity_ after_insert).
Proof.
  split; [exact (run_construct_reachable 4 crowd_ops crowded crowded_run)|].
  split; [by vm_compute|].
  split; [vm_compute; reflexivity|].
  split; [vm_compute; split_and!; [by eexists | done | done]|].
  split; [vm_compute; reflexivity|].
  split; [vm_compute; split_and!; [done | done | done | lia]|].
  split; [vm_compute; reflexivity|].
  vm_compute; split_and!; [done | done | lia].
Qed.

End CrowdedBuckets.

Module Scenarios.
Import ScenariosInput.

Lemma stA_reachable : reachable stA opsA.
Proof. apply (run_construct_reachable 2). vm_compute. reflexivity. Qed.

Lemma st10_reachable : reachable st10 ops10.
Proof. apply (run_construct_reachable 3). vm_compute. reflexivity. Qed.

Lemma stC_reachable : reachable stC opsC.
Proof. apply (run_construct_reachable 3). vm_compute. reflexivity. Qed.

Example scenario_A :
  ∃ st, run 2 (opsA ++ [OpInsert 1 "z"]) construct = Ok st
    ∧ size st = 2 ∧ at_ st 1 = Ok "a" ∧ at_ st 2 = Ok "b".
Proof. eexists. vm_compute. done. Qed.

Example scenario_C :
  find stC 5 = Ok (end_ stC) ∧ size stC = 9
  ∧ Forall (λ k, at_ stC k = Ok k) [0; 1; 2; 3; 4; 6; 7; 8; 9].
Proof. split_and!; [by vm_compute | by vm_compute |]. repeat constructor. Qed.

Example scenario_D : at_ (construct (KeyType := nat) (ValueType := nat)) 42 = Err KeyNotFound.
Proof. reflexivity. Qed.

Example scenario_E :
  ∃ st it, index 1 (construct (KeyType := nat) (ValueType := nat)) 7 = Ok (st, it, 0)
    ∧ size st = 1 ∧ find st 7 = Ok it ∧ it ≠ end_ st.
Proof. do 2 eexists. split_and!; [by vm_compute | done | done | by vm_compute]. Qed.

(** *** The claims at the scenarios *)

Lemma C1_round_trip_witness :
  reachable stC opsC ∧ model opsC !! 3 = Some 3
  ∧ ∃ it, find stC 3 = Ok it ∧ it ≠ end_ stC ∧ deref stC it = Ok (3, 3)
          ∧ at_ stC 3 = Ok 3
          ∧ ∀ fuel, index fuel stC 3 = Ok (stC, it, 3).
Proof.
  assert (Hm : model opsC !! 3 = Some 3) by (vm_compute; reflexivity).
  split; [exact stC_reachable|]. split; [exact Hm|].
  exact (C1_round_trip stC opsC 3 3 stC_reachable Hm).
Defined.

Lemma C2_insert_present_is_noop_witness :
  reachable stA opsA
  ∧ NoDup (keys_of stA)
  ∧ (1 ∈ keys_of stA ↔ is_Some (model opsA !! 1))
  ∧ (1 ∈ keys_of stA → ∀ fuel, insert (S fuel) stA (1, "z") = Ok stA).
Proof.
  split; [exact stA_reachable|].
  exact (C2_insert_present_is_noop stA opsA 1 "z" stA_reachable).
Defined.

Lemma C3_find_scans_probe_window_witness :
  wf stC
  ∧ GetBucket stC 5 = hasher_ 5 mod capacity_ stC
  ∧ (∀ j, probe_slot stC 5 j = (hasher_ 5 mod capacity_ stC + j) mod capacity_ stC)
  ∧ (∀ j, probe_slot stC 5 j = (GetBucket stC 5 + j) mod capacity_ stC)
  ∧ ((FindPosition stC 5 = Ok (capacity_ stC) ∧ find stC 5 = Ok (end_ stC)
      ∧ ∀ j, j < BLOCK_SIZE stC → ¬ holds stC (probe_slot stC 5 j) 5)
     ∨ (∃ j, j < BLOCK_SIZE stC
          ∧ FindPosition stC 5 = Ok (probe_slot stC 5 j)
          ∧ find stC 5 = Ok (probe_slot stC 5 j)
          ∧ probe_slot stC 5 j ≠ end_ stC
          ∧ holds stC (probe_slot stC 5 j) 5
          ∧ ∀ j', j' < j → ¬ holds stC (probe_slot stC 5 j') 5)).
Proof.
  assert (Hwf : wf stC).
  { split_and!; [by exists 6 | by vm_compute | by vm_compute]. }
  split; [exact Hwf|]. exact (C3_find_scans_probe_window stC 5 Hwf).
Defined.

Lemma C6_displacement_counter_witness :
  reachable st10 ops10 ∧ table_ st10 !! 3 = Some (Some (3, 3))
  ∧ GetBucket st10 3 = hasher_ 3 mod capacity_ st10
  ∧ ∃ d, from_ st10 !! 3 = Some d
         ∧ d = (3 + capacity_ st10 - hasher_ 3 mod capacity_ st10) mod capacity_ st10
         ∧ (hasher_ 3 mod capacity_ st10 + d) mod capacity_ st10 = 3
         ∧ d = (3 + capacity_ st10 - GetBucket st10 3) mod capacity_ st10
         ∧ (GetBucket st10 3 + d) mod capacity_ st10 = 3
         ∧ d < BLOCK_SIZE st10.
Proof.
  assert (Hi : table_ st10 !! 3 = Some (Some (3, 3))) by (vm_compute; reflexivity).
  split; [exact st10_reachable|]. split; [exact Hi|].
  exact (C6_displacement_counter st10 ops10 3 3 3 st10_reachable Hi).
Defined.



Lemma C9_traversal_witness :
  reachable stC opsC
  ∧ traverse stC = Ok (omap id (table_ stC))
  ∧ length (omap id (table_ stC)) = size stC
  ∧ NoDup (omap id (table_ stC)).*1
  ∧ omap id (table_ stC) ≡ₚ map_to_list (model opsC)
  ∧ (begin_ stC = Ok (end_ stC) ↔ empty stC = true).
Proof.
  split; [exact stC_reachable|]. exact (C9_traversal stC opsC stC_reachable).
Defined.

Lemma C10_accesses_in_bounds_witness :
  wf stC
  ∧ (∀ key, GetBucket stC key < length (table_ stC)
            ∧ GetBucket stC key < length (from_ stC))
  ∧ (∀ h, GetNext stC h < length (table_ stC) ∧ GetNext stC h < length (from_ stC))
  ∧ (∀ key, ∃ h, FindPosition stC key = Ok h ∧ h ≤ capacity_ stC)
  ∧ (∀ key, ∃ st', erase stC key = Ok st' ∧ wf st')
  ∧ (∀ fuel e, insert fuel stC e ≠ Err OutOfRange
               ∧ ∀ st', insert fuel stC e = Ok st' → wf st').
Proof.
  assert (Hwf : wf stC).
  { split_and!; [by exists 6 | by vm_compute | by vm_compute]. }
  split; [exact Hwf|]. exact (C10_accesses_in_bounds stC Hwf).
Defined.


End Scenarios.

(** ** The further properties on concrete tables *)

Module Extras.
Import ScenariosInput ExtrasInput.

Lemma st10_inv : inv st10.
Proof. exact (reachable_inv st10 ops10 Scenarios.st10_reachable). Qed.

Lemma stC_inv : inv stC.
Proof. exact (reachable_inv stC opsC Scenarios.stC_reachable). Qed.

Lemma stC_wf : wf stC.
Proof. split_and!; [by exists 6 | by vm_compute | by vm_compute]. Qed.

Lemma st10_fresh : 42 ∉ keys_of st10.
Proof. apply (bool_decide_unpack (42 ∉ keys_of st10)). vm_compute. reflexivity. Qed.

Lemma st10_at_42 : at_ st10 42 = Err KeyNotFound.
Proof. vm_compute. reflexivity. Qed.

Lemma st10_insert : insert 1 st10 (42, 7) = Ok st11.
Proof. vm_compute. reflexivity. Qed.

Lemma X2_range_constructor_first_wins_witness :
  construct_range 2 range_list = Ok st_range
  ∧ inv st_range
  ∧ (∀ l1 k v l2, range_list = l1 ++ (k, v) :: l2 → k ∉ l1.*1 →
       at_ st_range k = Ok v)
  ∧ (∀ k, k ∉ range_list.*1 → at_ st_range k = Err KeyNotFound)
  ∧ size st_range = length (remove_dups range_list.*1).
Proof.
  assert (Hrun : construct_range 2 range_list = Ok st_range)
    by (vm_compute; reflexivity).
  split; [exact Hrun|].
  exact (X2_range_constructor_first_wins 2 range_list st_range Hrun).
Defined.

Lemma X3_copy_constructor_witness :
  inv stC ∧ construct_copy 3 stC = Ok st_copy
  ∧ inv st_copy ∧ (∀ k, at_ st_copy k = at_ stC k) ∧ size st_copy = size stC.
Proof.
  assert (Hrun : construct_copy 3 stC = Ok st_copy) by (vm_compute; reflexivity).
  split; [exact stC_inv|]. split; [exact Hrun|].
  exact (X3_copy_constructor 3 stC st_copy stC_inv Hrun).
Defined.

Lemma X4_assignment_witness :
  inv stC ∧ assign_from 3 st10 stC = Ok st_assigned
  ∧ inv st_assigned ∧ (∀ k, at_ st_assigned k = at_ stC k)
  ∧ size st_assigned = size stC.
Proof.
  assert (Hrun : assign_from 3 st10 stC = Ok st_assigned)
    by (vm_compute; reflexivity).
  split; [exact stC_inv|]. split; [exact Hrun|].
  exact (X4_assignment 3 st10 stC st_assigned stC_inv Hrun).
Defined.

Lemma X5_iterator_increment_witness :
  wf stC
  ∧ (∃ b, begin_ stC = Ok b ∧ b ≤ end_ stC
          ∧ (∀ i, i < b → table_ stC !! i = Some None)
          ∧ (b < end_ stC → ∃ e, deref stC b = Ok e))
  ∧ (∀ it, it < end_ stC →
       it < iter_incr stC it ≤ end_ stC
       ∧ (∀ i, it < i < iter_incr stC it → table_ stC !! i = Some None)
       ∧ (iter_incr stC it < end_ stC → ∃ e, deref stC (iter_incr stC it) = Ok e)).
Proof. split; [exact stC_wf|]. exact (X5_iterator_increment stC stC_wf). Defined.

Lemma X6_iterator_decrement_witness :
  wf stC
  ∧ (∀ j e, table_ stC !! j = Some (Some e) →
       iter_decr stC (iter_incr stC j) = Ok j)
  ∧ (∀ it j, it = end_ stC ∨ (∃ e, table_ stC !! it = Some (Some e)) →
       iter_decr stC it = Ok j →
       (∃ e, deref stC j = Ok e) ∧ iter_incr stC j = it)
  ∧ (∀ b, begin_ stC = Ok b → iter_decr stC b = Err OutOfRange).
Proof. split; [exact stC_wf|]. exact (X6_iterator_decrement stC stC_wf). Defined.

Lemma X7_erase_keeps_iteration_order_witness :
  inv st10 ∧ erase st10 5 = Ok stC
  ∧ ∃ l, traverse st10 = Ok l ∧ traverse stC = Ok (filter (λ e, e.1 ≠ 5) l).
Proof.
  assert (Hrun : erase st10 5 = Ok stC) by (vm_compute; reflexivity).
  split; [exact st10_inv|]. split; [exact Hrun|].
  exact (X7_erase_keeps_iteration_order st10 5 stC st10_inv Hrun).
Defined.

Lemma X8_size_counts_live_keys_witness :
  reachable stC opsC
  ∧ size stC = base.size (model opsC)
  ∧ size stC = length (omap id (table_ stC))
  ∧ (empty stC = true ↔ model opsC = ∅).
Proof.
  split; [exact Scenarios.stC_reachable|].
  exact (X8_size_counts_live_keys stC opsC Scenarios.stC_reachable).
Defined.

Lemma X9_reachable_shape_witness :
  reachable stC opsC
  ∧ (∃ a, capacity_ stC = 2 ^ a)
  ∧ length (table_ stC) = capacity_ stC
  ∧ length (from_ stC) = capacity_ stC
  ∧ size stC ≤ capacity_ stC
  ∧ DEFAULT_BLOCK_SIZE ≤ BLOCK_SIZE stC.
Proof.
  split; [exact Scenarios.stC_reachable|].
  exact (X9_reachable_shape stC opsC Scenarios.stC_reachable).
Defined.

Lemma X10_insert_new_key_witness :
  inv st10 ∧ at_ st10 42 = Err KeyNotFound ∧ insert 1 st10 (42, 7) = Ok st11
  ∧ inv st11 ∧ at_ st11 42 = Ok 7 ∧ size st11 = size st10 + 1
  ∧ ∀ k', k' ≠ 42 → at_ st11 k' = at_ st10 k'.
Proof.
  split; [exact st10_inv|]. split; [exact st10_at_42|]. split; [exact st10_insert|].
  exact (X10_insert_new_key 1 st10 42 7 st11 st10_inv st10_at_42 st10_insert).
Defined.

Lemma X11_rebuild_keeps_entries_witness :
  tbl_inv st10 ∧ size_ st10 = length (entries st10)
  ∧ Rebuild 2 st10 = Ok st10_rebuilt
  ∧ inv st10_rebuilt ∧ size st10_rebuilt = size st10
  ∧ entries st10_rebuilt ≡ₚ entries st10
  ∧ ∀ k, at_ st10_rebuilt k = at_ st10 k.
Proof.
  assert (Hsz : size_ st10 = length (entries st10)) by (vm_compute; reflexivity).
  assert (Hrun : Rebuild 2 st10 = Ok st10_rebuilt) by (vm_compute; reflexivity).
  split; [exact (proj1 st10_inv)|]. split; [exact Hsz|]. split; [exact Hrun|].
  exact (X11_rebuild_keeps_entries 2 st10 st10_rebuilt (proj1 st10_inv) Hsz Hrun).
Defined.

Lemma X12_rebuild_policy_witness :
  tbl_inv st10 ∧ size_ st10 = length (entries st10)
  ∧ Rebuild_prepare st10 = Ok (st10_prepared, entries st10)
  ∧ insert_all (insert 1) st10_prepared (entries st10) = Ok st10_rebuilt
  ∧ (∀ fuel, Rebuild (S fuel) st10 = Ok st10_rebuilt)
  ∧ (∃ a, capacity_ st10_rebuilt = 2 ^ a ∧ size st10 * STANDARD_DIFF ≤ 2 ^ a
          ∧ ∀ a', size st10 * STANDARD_DIFF ≤ 2 ^ a' → a ≤ a')
  ∧ BLOCK_SIZE st10_rebuilt
    = Nat.max DEFAULT_BLOCK_SIZE
        (2 * max_element (cluster st10_rebuilt (entries st10)
                            <$> seq 0 (capacity_ st10_rebuilt)))
  ∧ size st10_rebuilt = size st10
  ∧ size st10_rebuilt * STANDARD_DIFF ≤ capacity_ st10_rebuilt.
Proof.
  assert (Hsz : size_ st10 = length (entries st10)) by (vm_compute; reflexivity).
  assert (Hprep : Rebuild_prepare st10 = Ok (st10_prepared, entries st10))
    by (vm_compute; reflexivity).
  assert (Hall : insert_all (insert 1) st10_prepared (entries st10) = Ok st10_rebuilt)
    by (vm_compute; reflexivity).
  split; [exact (proj1 st10_inv)|]. split; [exact Hsz|]. split; [exact Hprep|].
  split; [exact Hall|].
  exact (X12_rebuild_policy st10 st10_prepared (entries st10) st10_rebuilt
           (proj1 st10_inv) Hsz Hprep Hall).
Defined.

Lemma X13_probe_walk_ends_witness :
  tbl_inv st10 ∧ ((42, 7).1 ∉ keys_of st10)
  ∧ ∃ st' ptr',
      (∀ n, probe_bound st10 ≤ n →
         insert_probe n st10 (Some (42, 7)) 0 (GetBucket st10 (42, 7).1)
         = Ok (st', ptr'))
      ∧ tbl_inv st'
      ∧ capacity_ st' = capacity_ st10 ∧ BLOCK_SIZE st' = BLOCK_SIZE st10
      ∧ size_ st' = size_ st10
      ∧ option_list ptr' ++ entries st' ≡ₚ (42, 7) :: entries st10.
Proof.
  split; [exact (proj1 st10_inv)|]. split; [exact st10_fresh|].
  exact (X13_probe_walk_ends st10 (42, 7) (proj1 st10_inv) st10_fresh).
Defined.

Lemma X14_insert_without_rebuild_witness :
  inv st10 ∧ (42 ∉ keys_of st10)
  ∧ (size st10 < capacity_ st10 ∧ capacity_ st10 ≤ BLOCK_SIZE st10)
  ∧ ∃ st', (∀ fuel, insert (S fuel) st10 (42, 7) = Ok st')
      ∧ capacity_ st' = capacity_ st10 ∧ BLOCK_SIZE st' = BLOCK_SIZE st10
      ∧ size st' = size st10 + 1.
Proof.
  assert (Hroom : size st10 < capacity_ st10 ∧ capacity_ st10 ≤ BLOCK_SIZE st10)
    by (vm_compute; lia).
  split; [exact st10_inv|]. split; [exact st10_fresh|]. split; [exact Hroom|].
  exact (X14_insert_without_rebuild st10 42 7 st10_inv st10_fresh (or_intror Hroom)).
Defined.

Lemma X15_index_assign_witness :
  inv st10 ∧ index_assign 1 st10 42 7 = Ok st10_indexed
  ∧ inv st10_indexed ∧ at_ st10_indexed 42 = Ok 7
  ∧ (∀ k', k' ≠ 42 → at_ st10_indexed k' = at_ st10 k')
  ∧ size st10_indexed
    = (if decide (42 ∈ keys_of st10) then size st10 else size st10 + 1).
Proof.
  assert (Hrun : index_assign 1 st10 42 7 = Ok st10_indexed)
    by (vm_compute; reflexivity).
  split; [exact st10_inv|]. split; [exact Hrun|].
  exact (X15_index_assign 1 st10 42 7 st10_indexed st10_inv Hrun).
Defined.

Lemma X16_insert_then_erase_witness :
  inv st10 ∧ at_ st10 42 = Err KeyNotFound ∧ insert 1 st10 (42, 7) = Ok st11
  ∧ ∃ st2, erase st11 42 = Ok st2 ∧ inv st2 ∧ size st2 = size st10
      ∧ (∀ k', at_ st2 k' = at_ st10 k')
      ∧ erase st2 42 = Ok st2.
Proof.
  split; [exact st10_inv|]. split; [exact st10_at_42|]. split; [exact st10_insert|].
  exact (X16_insert_then_erase 1 st10 42 7 st11 st10_inv st10_at_42 st10_insert).
Defined.

Lemma X17_at_and_index_outcomes_witness :
  reachable st10 ops10
  ∧ (42 ∉ keys_of st10 ↔ at_ st10 42 = Err KeyNotFound)
  ∧ (∀ v, (∃ i, table_ st10 !! i = Some (Some (42, v))) ↔ at_ st10 42 = Ok v)
  ∧ (∀ fuel o err, step fuel st10 o = Err err → err = OutOfFuel)
  ∧ (42 ∈ keys_of st10 → ∀ fuel, ∃ it v,
       index fuel st10 42 = Ok (st10, it, v)
       ∧ table_ st10 !! it = Some (Some (42, v)))
  ∧ (42 ∉ keys_of st10 → ∀ fuel,
       match insert fuel st10 (42, default_value) with
       | Ok st1 =>
           ∃ it, index fuel st10 42 = Ok (st1, it, default_value)
                 ∧ table_ st1 !! it = Some (Some (42, default_value))
                 ∧ size st1 = size st10 + 1
       | Err err => index fuel st10 42 = Err err ∧ err = OutOfFuel
       end)
  ∧ (42 ∉ keys_of st10 → ∀ j, j < BLOCK_SIZE st10 →
       table_ st10 !! probe_slot st10 42 j = Some None →
       ∃ st1 it, index 1 st10 42 = Ok (st1, it, default_value)
                 ∧ table_ st1 !! it = Some (Some (42, default_value))
                 ∧ size st1 = size st10 + 1).
Proof.
  split; [exact Scenarios.st10_reachable|].
  exact (X17_at_and_index_outcomes st10 ops10 42 Scenarios.st10_reachable).
Defined.

End Extras.
